(** * VORTEX single-page site: the interactive logic of [src/App.tsx]

    A shallow embedding of the parts of [App.tsx] that compute something:
    the scroll-progress tracker, the real-estate filter, the contact form's
    submit handler, the canvas particle field and the limited-slots counter.

    Conventions of the embedding.
    - A JavaScript string is the list of its UTF-16 code units ([jsstring]).
    - A JavaScript number is an exact rational ([Q]) where the code divides or
      draws random values, and an integer ([Z]) where the code only ever holds
      integers (prices, bedroom counts, pixel sizes, the slots counter).
    - [Math.random()] is a stream of rationals threaded through the code as
      explicit state.
    - A React event handler is a program that emits the setter calls and the
      outside calls it performs, in order; the component state after the
      handler is the state before it with the setter calls applied. *)

From Stdlib Require Import List Bool Arith ZArith NArith QArith Qminmax Qround Lia.
From Stdlib Require Import Strings.String Strings.Ascii.
Import ListNotations.

(* ================================================================== *)
(** * JavaScript strings *)
(* ================================================================== *)

Module JS.

(** A string value: a sequence of UTF-16 code units. *)
Definition jsstring := list N.

(** ** Literals

    Source literals are written as Rocq strings, which hold UTF-8 bytes;
    [lit] decodes them to code units so that the literals of the source can be
    written as they stand there. *)

Definition cont (b : ascii) : N := N.land (N_of_ascii b) 63.

Fixpoint code_points (s : string) : list N :=
  match s with
  | EmptyString => []
  | String a s1 =>
      let b0 := N_of_ascii a in
      if (b0 <? 128)%N then b0 :: code_points s1
      else match s1 with
           | EmptyString => [65533%N]
           | String b s2 =>
               if (b0 <? 224)%N then
                 (N.shiftl (N.land b0 31) 6 + cont b)%N :: code_points s2
               else match s2 with
                    | EmptyString => [65533%N]
                    | String c s3 =>
                        if (b0 <? 240)%N then
                          (N.shiftl (N.land b0 15) 12 + N.shiftl (cont b) 6 + cont c)%N
                            :: code_points s3
                        else match s3 with
                             | EmptyString => [65533%N]
                             | String d s4 =>
                                 (N.shiftl (N.land b0 7) 18 + N.shiftl (cont b) 12
                                  + N.shiftl (cont c) 6 + cont d)%N :: code_points s4
                             end
                    end
           end
  end.

Definition code_units (cp : N) : list N :=
  if (cp <? 65536)%N then [cp]
  else let v := (cp - 65536)%N in
       [(55296 + N.shiftr v 10)%N; (56320 + N.land v 1023)%N].

Definition lit (s : string) : jsstring := flat_map code_units (code_points s).

(** ** Truthiness of a string: [if (s)], [!s], [s || d] *)

Definition truthy (s : jsstring) : bool :=
  match s with [] => false | _ :: _ => true end.

Definition or_else (s d : jsstring) : jsstring := if truthy s then s else d.

(** ** White space

    The code units that [String.prototype.trim] strips and that the regular
    expression class [\s] matches: ECMAScript's WhiteSpace and LineTerminator
    productions (TAB, LF, VT, FF, CR, SP, NBSP, the Unicode space separators,
    LS, PS and the byte-order mark). *)

Definition isWhiteSpace (c : N) : bool :=
  ((9 <=? c) && (c <=? 13) || (c =? 32) || (c =? 160) || (c =? 5760)
   || (8192 <=? c) && (c <=? 8202) || (c =? 8232) || (c =? 8233)
   || (c =? 8239) || (c =? 8287) || (c =? 12288) || (c =? 65279))%N.

Fixpoint trimStart (s : jsstring) : jsstring :=
  match s with
  | [] => []
  | c :: s' => if isWhiteSpace c then trimStart s' else s
  end.

Definition trimEnd (s : jsstring) : jsstring := rev (trimStart (rev s)).

Definition trim (s : jsstring) : jsstring := trimEnd (trimStart s).

(** A string made of white space only (the empty string included). *)
Definition blank (s : jsstring) : Prop := Forall (fun c => isWhiteSpace c = true) s.

(** ** [String.prototype.includes] *)

Fixpoint startsWith (s p : jsstring) {struct p} : bool :=
  match p, s with
  | [], _ => true
  | _ :: _, [] => false
  | a :: p', b :: s' => (a =? b)%N && startsWith s' p'
  end.

Fixpoint includes (s p : jsstring) : bool :=
  startsWith s p || match s with
                    | [] => false
                    | _ :: s' => includes s' p
                    end.

(** The lower-case mapping of the code units below U+0100, where
    [String.prototype.toLowerCase] is the code-unit-wise map that sends A-Z and
    the Latin-1 capitals (U+00C0..U+00DE, the multiplication sign apart) 32
    places up and leaves the rest alone. *)
Definition lower_latin1 (c : N) : N :=
  if ((65 <=? c) && (c <=? 90)
      || (192 <=? c) && (c <=? 222) && negb (c =? 215))%N
  then (c + 32)%N else c.

Definition toLowerCase_latin1 (s : jsstring) : jsstring := map lower_latin1 s.

End JS.

Import JS.

(* ================================================================== *)
(** * Regular expressions, as far as [validateEmail] needs them *)
(* ================================================================== *)

Module RegExp.

(** One character position: a literal code unit, or the class [\S]. *)
Inductive atom : Type :=
| Chr (c : N)
| NonSpace.

(** A term of a pattern: an atom, or an atom under the greedy [+]. *)
Inductive term : Type :=
| Once (a : atom)
| Plus (a : atom).

Definition pattern := list term.

Definition atom_ok (a : atom) (c : N) : bool :=
  match a with
  | Chr k => (c =? k)%N
  | NonSpace => negb (isWhiteSpace c)
  end.

(** The backtracking matcher, anchored at the head of the subject.  Under the
    greedy [+] an atom takes one unit, then first tries to take more and falls
    back to the rest of the pattern, [k]. *)
Fixpoint many (ok : N -> bool) (k : jsstring -> bool) (s : jsstring) : bool :=
  match s with
  | [] => false
  | c :: s' => ok c && (many ok k s' || k s')
  end.

Fixpoint match_here (p : pattern) (s : jsstring) : bool :=
  match p with
  | [] => true
  | Once a :: p' =>
      match s with
      | [] => false
      | c :: s' => atom_ok a c && match_here p' s'
      end
  | Plus a :: p' => many (atom_ok a) (match_here p') s
  end.

(** [RegExp.prototype.test] of a pattern without flags: the first start
    position from which the pattern matches, scanning left to right. *)
Fixpoint test (p : pattern) (s : jsstring) : bool :=
  match_here p s || match s with
                    | [] => false
                    | _ :: s' => test p s'
                    end.

(** What a pattern denotes, read off its syntax. *)
Inductive matches_term : term -> jsstring -> Prop :=
| M_once a c : atom_ok a c = true -> matches_term (Once a) [c]
| M_plus a c l :
    atom_ok a c = true -> Forall (fun x => atom_ok a x = true) l ->
    matches_term (Plus a) (c :: l).

Inductive matches : pattern -> jsstring -> Prop :=
| M_nil : matches [] []
| M_cons t p l1 l2 :
    matches_term t l1 -> matches p l2 -> matches (t :: p) (l1 ++ l2).

End RegExp.

(* ================================================================== *)
(** * Contact form: [ContactForm], [validateEmail], [handleSubmit] *)
(* ================================================================== *)

Module ContactForm.

Local Open Scope string_scope.
Local Open Scope list_scope.

(** The component's [useState] cells. *)
Record FormState : Type := {
  name : jsstring;
  company : jsstring;
  email : jsstring;
  budget : jsstring;
  message : jsstring;
  maintenance : bool;
  loading : bool;
  success : option jsstring;
  error : option jsstring;
  hp : jsstring
}.

(** The arguments of the [useState] calls. *)
Definition initial : FormState :=
  {| name := lit ""; company := lit ""; email := lit ""; budget := lit "749";
     message := lit ""; maintenance := false; loading := false;
     success := None; error := None; hp := lit "" |}.

(** [/\S+@\S+\.\S+/] *)
Definition email_re : RegExp.pattern :=
  [RegExp.Plus RegExp.NonSpace; RegExp.Once (RegExp.Chr 64);
   RegExp.Plus RegExp.NonSpace; RegExp.Once (RegExp.Chr 46);
   RegExp.Plus RegExp.NonSpace].

Definition validateEmail (e : jsstring) : bool := RegExp.test email_re e.

(** ** The outside world of the handler *)

Record Payload : Type := {
  api_key : jsstring;
  subject : jsstring;
  p_name : jsstring;
  p_email : jsstring;
  p_company : jsstring;
  p_message : jsstring
}.

Record Request : Type := {
  url : jsstring;
  method : jsstring;
  headers : list (jsstring * jsstring);
  body : Payload
}.

(** A response: its [ok] flag and what [res.text()] resolves to ([None] when
    reading the body rejects). *)
Record Response : Type := {
  ok : bool;
  text : option jsstring
}.

(** What a rejected promise carries. *)
Inductive exn : Type :=
| FetchRejected
| BodyRejected.

(** The relay as the handler sees it: a response, or a rejected [fetch]. *)
Definition Network := Request -> option Response.

Inductive logged : Type :=
| LogText (s : jsstring)
| LogExn (e : exn).

(** The calls a run of the handler performs, in program order. *)
Inductive action : Type :=
| PreventDefault
| SetName (v : jsstring)
| SetCompany (v : jsstring)
| SetEmail (v : jsstring)
| SetBudget (v : jsstring)
| SetMessage (v : jsstring)
| SetMaintenance (v : bool)
| SetLoading (v : bool)
| SetSuccess (v : option jsstring)
| SetError (v : option jsstring)
| Fetch (req : Request)
| ConsoleError (args : list logged).

(** ** A monad for the handler: a trace of calls, and a value or a thrown
    exception *)

Definition Eff (A : Type) : Type := (list action * (exn + A))%type.

Definition ret {A} (a : A) : Eff A := ([], inr a).

Definition bind {A B} (m : Eff A) (k : A -> Eff B) : Eff B :=
  match m with
  | (t, inl e) => (t, inl e)
  | (t, inr a) => let (t', r) := k a in (t ++ t', r)
  end.

Definition emit (a : action) : Eff unit := ([a], inr tt).

Definition throw {A} (e : exn) : Eff A := ([], inl e).

Notation "x <- m ;; k" := (bind m (fun x => k))
  (at level 61, m at next level, right associativity).
Notation "m ;; k" := (bind m (fun _ => k))
  (at level 61, right associativity).

(** [try { body } catch (err) { handler err } finally { fin }] *)
Definition try_catch_finally (body : Eff unit) (handler : exn -> Eff unit)
    (fin : Eff unit) : Eff unit :=
  let caught :=
    match body with
    | (t, inl e) => let (t', r) := handler e in (t ++ t', r)
    | (t, inr _) => (t, inr tt)
    end in
  match caught, fin with
  | (t, r), (tf, inr _) => (t ++ tf, r)
  | (t, _), (tf, inl e) => (t ++ tf, inl e)
  end.

(** [await fetch(url, init)] *)
Definition fetch (net : Network) (req : Request) : Eff Response :=
  emit (Fetch req) ;;
  match net req with
  | Some res => ret res
  | None => throw FetchRejected
  end.

(** [await res.text()] *)
Definition res_text (res : Response) : Eff jsstring :=
  match text res with
  | Some s => ret s
  | None => throw BodyRejected
  end.

(** ** [handleSubmit] *)

Definition msg_name_required : jsstring := lit "Nom requis.".
Definition msg_email_invalid : jsstring := lit "Email invalide.".
Definition msg_bot : jsstring := lit "Bot détecté.".
Definition msg_send_failed : jsstring :=
  lit "Erreur d'envoi — veuillez réessayer plus tard.".
Definition msg_network : jsstring :=
  lit "Erreur de réseau — vérifiez votre connexion.".
Definition msg_thanks : jsstring :=
  lit "Merci ! Votre demande a été envoyée. Nous vous contactons sous 24h.".

Definition endpoint : jsstring := lit "https://api.web3forms.com/submit".

Definition payload (st : FormState) : Payload :=
  {| api_key := lit "WEB3FORMS_API_KEY_PLACEHOLDER";
     subject := lit "Nouveau lead — VORTEX ("
                ++ or_else (company st) (lit "sans entreprise") ++ lit ")";
     p_name := name st;
     p_email := email st;
     p_company := company st;
     p_message := message st ++ [10; 10]%N ++ lit "Maintenance: "
                  ++ (if maintenance st then lit "Oui" else lit "Non")
                  ++ [10]%N ++ lit "Budget présumé: " ++ budget st ++ lit "€" |}.

Definition request (st : FormState) : Request :=
  {| url := endpoint;
     method := lit "POST";
     headers := [(lit "Content-Type", lit "application/json")];
     body := payload st |}.

(** The handler, run in a render whose state cells hold [st]. *)
Definition handleSubmit (net : Network) (st : FormState) : Eff unit :=
  emit PreventDefault ;;
  emit (SetError None) ;;
  emit (SetSuccess None) ;;
  if negb (truthy (trim (name st))) then emit (SetError (Some msg_name_required))
  else if negb (validateEmail (email st)) then emit (SetError (Some msg_email_invalid))
  else if truthy (hp st) then emit (SetError (Some msg_bot))
  else
    emit (SetLoading true) ;;
    try_catch_finally
      (res <- fetch net (request st) ;;
       if negb (ok res) then
         text <- res_text res ;;
         emit (ConsoleError [LogText (lit "Web3Forms error"); LogText text]) ;;
         emit (SetError (Some msg_send_failed))
       else
         emit (SetSuccess (Some msg_thanks)) ;;
         emit (SetName (lit "")) ;;
         emit (SetCompany (lit "")) ;;
         emit (SetEmail (lit "")) ;;
         emit (SetMessage (lit "")) ;;
         emit (SetMaintenance false) ;;
         emit (SetBudget (lit "749")))
      (fun err =>
         emit (ConsoleError [LogExn err]) ;;
         emit (SetError (Some msg_network)))
      (emit (SetLoading false)).

(** ** The state after a run *)

Definition apply_action (st : FormState) (a : action) : FormState :=
  match a with
  | SetName v =>
      {| name := v; company := company st; email := email st; budget := budget st;
         message := message st; maintenance := maintenance st; loading := loading st;
         success := success st; error := error st; hp := hp st |}
  | SetCompany v =>
      {| name := name st; company := v; email := email st; budget := budget st;
         message := message st; maintenance := maintenance st; loading := loading st;
         success := success st; error := error st; hp := hp st |}
  | SetEmail v =>
      {| name := name st; company := company st; email := v; budget := budget st;
         message := message st; maintenance := maintenance st; loading := loading st;
         success := success st; error := error st; hp := hp st |}
  | SetBudget v =>
      {| name := name st; company := company st; email := email st; budget := v;
         message := message st; maintenance := maintenance st; loading := loading st;
         success := success st; error := error st; hp := hp st |}
  | SetMessage v =>
      {| name := name st; company := company st; email := email st; budget := budget st;
         message := v; maintenance := maintenance st; loading := loading st;
         success := success st; error := error st; hp := hp st |}
  | SetMaintenance v =>
      {| name := name st; company := company st; email := email st; budget := budget st;
         message := message st; maintenance := v; loading := loading st;
         success := success st; error := error st; hp := hp st |}
  | SetLoading v =>
      {| name := name st; company := company st; email := email st; budget := budget st;
         message := message st; maintenance := maintenance st; loading := v;
         success := success st; error := error st; hp := hp st |}
  | SetSuccess v =>
      {| name := name st; company := company st; email := email st; budget := budget st;
         message := message st; maintenance := maintenance st; loading := loading st;
         success := v; error := error st; hp := hp st |}
  | SetError v =>
      {| name := name st; company := company st; email := email st; budget := budget st;
         message := message st; maintenance := maintenance st; loading := loading st;
         success := success st; error := v; hp := hp st |}
  | PreventDefault | Fetch _ | ConsoleError _ => st
  end.

Definition trace {A} (m : Eff A) : list action := fst m.

(** The state cells once the setter calls of a run are applied. *)
Definition after {A} (st : FormState) (m : Eff A) : FormState :=
  fold_left apply_action (trace m) st.

(** The network calls of a run. *)
Definition fetches (t : list action) : list Request :=
  flat_map (fun a => match a with Fetch req => [req] | _ => [] end) t.

(** The user-editable fields of a state. *)
Definition fields (st : FormState) :=
  (name st, company st, email st, message st, maintenance st, budget st, hp st).

(** The three local validations of the handler. *)
Definition passes_validation (st : FormState) : bool :=
  truthy (trim (name st)) && validateEmail (email st) && negb (truthy (hp st)).

(** Whether the relay answered the POST with an OK response. *)
Definition responded_ok (o : option Response) : bool :=
  match o with
  | Some res => ok res
  | None => false
  end.

(** The shape the pattern of [validateEmail] describes, in words: somewhere
    in the string, a run of non-space units, an at sign, a run of non-space
    units, a dot, and a run of non-space units. *)
Definition nonspace_run (l : jsstring) : Prop :=
  l <> [] /\ Forall (fun c => isWhiteSpace c = false) l.

Definition EmailShaped (e : jsstring) : Prop :=
  exists pre a b c post,
    e = pre ++ a ++ [64%N] ++ b ++ [46%N] ++ c ++ post
    /\ nonspace_run a /\ nonspace_run b /\ nonspace_run c.

End ContactForm.

(* ================================================================== *)
(** * Scroll progress: [clamp] and [App]'s [handleScroll] *)
(* ================================================================== *)

Module Scroll.

Local Open Scope Q_scope.

(** [x > y] on numbers. *)
Definition gt (x y : Q) : bool :=
  match x ?= y with Gt => true | _ => false end.

(** [const clamp = (v, a = 0, b = 1) => Math.max(a, Math.min(b, v))] *)
Definition clamp (v a b : Q) : Q := Qmax a (Qmin b v).

(** The value [handleScroll] passes to [setProgress], from
    [document.documentElement.scrollHeight], [window.innerHeight] and
    [window.scrollY]. *)
Definition handleScroll (scrollHeight innerHeight scrollY : Q) : Q :=
  let total := scrollHeight - innerHeight in
  let scrolled := if gt total 0 then scrollY / total else 0 in
  clamp scrolled 0 1.

End Scroll.

(* ================================================================== *)
(** * Real-estate mini-site: the filter of [RealEstateMiniSite] *)
(* ================================================================== *)

Module RealEstate.

Local Open Scope string_scope.
Local Open Scope list_scope.
Local Open Scope Z_scope.

Record House : Type := {
  id : Z;
  title : jsstring;
  price : Z;
  beds : Z;
  img : option jsstring
}.

(** The [filters] state cell; [useState({ beds: 2, maxPrice: 500000 })]. *)
Record Filters : Type := {
  min_beds : Z;
  maxPrice : Z
}.

Definition initial_filters : Filters := {| min_beds := 2; maxPrice := 500000 |}.

Definition sampleHouses : list House :=
  [ {| id := 1; title := lit "Loft lumineux — 3 pièces"; price := 420000; beds := 2;
       img := None |};
    {| id := 2; title := lit "Maison familiale — Jardin"; price := 680000; beds := 4;
       img := None |};
    {| id := 3; title := lit "Studio centre-ville"; price := 210000; beds := 0;
       img := None |} ].

(** What the result column renders: one card per result, then the
    no-results line when [results.length === 0]. *)
Inductive node : Type :=
| Card (r : House)
| NoResults.

Section Filter.

(** [String.prototype.toLowerCase], whose Unicode tables are the host's. *)
Variable toLowerCase : jsstring -> jsstring.

Definition keep (query : jsstring) (filters : Filters) (h : House) : bool :=
  (price h <=? maxPrice filters) && (beds h >=? min_beds filters)
  && includes (toLowerCase (title h)) (toLowerCase query).

Definition results (query : jsstring) (filters : Filters) : list House :=
  filter (keep query filters) sampleHouses.

Definition render (query : jsstring) (filters : Filters) : list node :=
  let rs := results query filters in
  map Card rs ++ (if (List.length rs =? 0)%nat then [NoResults] else []).

(** The listing as the claim words it: the title contains the query, both
    taken in lower case. *)
Definition contains_ci (t q : jsstring) : Prop :=
  exists pre post, toLowerCase t = pre ++ toLowerCase q ++ post.

Definition wanted (query : jsstring) (filters : Filters) (h : House) : Prop :=
  price h <= maxPrice filters /\ beds h >= min_beds filters
  /\ contains_ci (title h) query.

End Filter.

End RealEstate.

(* ================================================================== *)
(** * [Math.random()] as threaded state *)
(* ================================================================== *)

Module Random.

(** The random source: the values the calls of [Math.random()] return, in
    order, and the number of calls made so far. *)
Record rng : Type := {
  stream : nat -> Q;
  calls : nat
}.

Definition seed (f : nat -> Q) : rng := {| stream := f; calls := 0 |}.

Definition State (A : Type) : Type := rng -> A * rng.

Definition ret {A} (a : A) : State A := fun g => (a, g).

Definition bind {A B} (m : State A) (k : A -> State B) : State B :=
  fun g => let (a, g') := m g in k a g'.

(** One call of [Math.random()]. *)
Definition random : State Q :=
  fun g => (stream g (calls g), {| stream := stream g; calls := S (calls g) |}).

Module Notations.
Notation "x <- m ;; k" := (bind m (fun x => k))
  (at level 61, m at next level, right associativity).
End Notations.

End Random.

(* ================================================================== *)
(** * Canvas particles: [CanvasParticles] *)
(* ================================================================== *)

Module Particles.

Import Random Random.Notations.
Local Open Scope Q_scope.

Record Particle : Type := {
  x : Q;
  y : Q;
  vx : Q;
  vy : Q;
  r : Q;
  hue : Q;
  life : Q;
  maxLife : Q;
  alpha : Q
}.

(** [rand(min, max)] *)
Definition rand (min max : Q) : State Q :=
  u <- random ;; ret (u * (max - min) + min).

(** [Particle.reset]: every field is overwritten, so the particle it leaves
    depends on the viewport and the random draws only. *)
Definition reset (width height : Z) : State Particle :=
  x' <- rand 0 (inject_Z width) ;;
  y' <- rand 0 (inject_Z height) ;;
  vx' <- rand (-(12 # 100)) (12 # 100) ;;
  vy' <- rand (-(8 # 100)) (8 # 100) ;;
  r' <- rand (8 # 10) (32 # 10) ;;
  h' <- rand (-(20)) 20 ;;
  m' <- rand 120 600 ;;
  a' <- rand (5 # 100) (35 # 100) ;;
  ret {| x := x'; y := y'; vx := vx'; vy := vy'; r := r'; hue := 180 + h';
         life := 0; maxLife := m'; alpha := a' |}.

(** The three updates at the head of [Particle.step]. *)
Definition advance (p : Particle) : Particle :=
  {| x := x p + vx p; y := y p + vy p; vx := vx p; vy := vy p; r := r p;
     hue := hue p; life := life p + 1; maxLife := maxLife p; alpha := alpha p |}.

Definition expired (p : Particle) : bool := Scroll.gt (life p) (maxLife p).

(** [this.x < -10 || this.x > width + 10 || this.y < -10 || this.y > height + 10] *)
Definition escaped (width height : Z) (p : Particle) : bool :=
  Scroll.gt (-(10)) (x p) || Scroll.gt (x p) (inject_Z width + 10)
  || Scroll.gt (-(10)) (y p) || Scroll.gt (y p) (inject_Z height + 10).

(** [Particle.step] *)
Definition step (width height : Z) (p : Particle) : State Particle :=
  p1 <- ret (advance p) ;;
  p2 <- (if expired p1 then reset width height else ret p1) ;;
  if escaped width height p2 then reset width height else ret p2.

(** The closure variables of the effect: the viewport size the particles
    read, the size of the canvas, and the particle array. *)
Record Field : Type := {
  width : Z;
  height : Z;
  canvas_width : Z;
  canvas_height : Z;
  particles : list Particle
}.

(** [Math.round]: the nearest integer, halves going up. *)
Definition Math_round (q : Q) : Z := Qfloor (q + (1 # 2)).

(** [Math.round((width * height) / 45000)] *)
Definition particleCount (width height : Z) : Z :=
  Math_round (inject_Z (width * height) / 45000).

(** [for (let i = 0; i < n; i++) particles.push(new Particle())], the loop
    counted down from the number of iterations left. *)
Fixpoint push_new (n : nat) (width height : Z) (ps : list Particle)
  : State (list Particle) :=
  match n with
  | O => ret ps
  | S n' =>
      p <- reset width height ;;
      push_new n' width height (ps ++ [p])
  end.

(** The body of the effect up to the first frame, when the canvas and its 2D
    context are there; [None] on the two early returns. *)
Definition mount (canvas ctx : bool) (innerWidth innerHeight : Z)
  : State (option Field) :=
  if negb canvas then ret None
  else if negb ctx then ret None
  else
    ps <- push_new (Z.to_nat (particleCount innerWidth innerHeight))
                   innerWidth innerHeight [] ;;
    ret (Some {| width := innerWidth; height := innerHeight;
                 canvas_width := innerWidth; canvas_height := innerHeight;
                 particles := ps |}).

(** One pass of the loop in [frame] over the particle array (the drawing
    calls left out). *)
Fixpoint step_all (width height : Z) (ps : list Particle) : State (list Particle) :=
  match ps with
  | [] => ret []
  | p :: ps' =>
      p' <- step width height p ;;
      rest <- step_all width height ps' ;;
      ret (p' :: rest)
  end.

Definition frame (f : Field) : State Field :=
  ps <- step_all (width f) (height f) (particles f) ;;
  ret {| width := width f; height := height f; canvas_width := canvas_width f;
         canvas_height := canvas_height f; particles := ps |}.

(** [onResize]; [particles.length = 0] keeps no element of the array. *)
Definition onResize (innerWidth innerHeight : Z) (f : Field) : State Field :=
  let emptied := firstn 0 (particles f) in
  let newCount := particleCount innerWidth innerHeight in
  ps <- push_new (Z.to_nat newCount) innerWidth innerHeight emptied ;;
  ret {| width := innerWidth; height := innerHeight;
         canvas_width := innerWidth; canvas_height := innerHeight;
         particles := ps |}.

(** A run of [step] respawned its particle when [reset] ran in it, which is
    where [step] calls [Math.random()]. *)
Definition respawned (width height : Z) (p : Particle) (g : rng) : Prop :=
  calls (snd (step width height p g)) <> calls g.

(** The two tests of [step], on the particle once advanced. *)
Definition respawn_due (width height : Z) (p1 : Particle) : Prop :=
  maxLife p1 < life p1
  \/ x p1 < -(10) \/ inject_Z width + 10 < x p1
  \/ y p1 < -(10) \/ inject_Z height + 10 < y p1.

(** The viewport rectangle itself, for comparison with [escaped]. *)
Definition outside_viewport (width height : Z) (p : Particle) : Prop :=
  x p < 0 \/ inject_Z width < x p \/ y p < 0 \/ inject_Z height < y p.

End Particles.

(* ================================================================== *)
(** * The limited-slots counter of [CTABox] *)
(* ================================================================== *)

Module CTABox.

Import Random Random.Notations.

(** [useState(6)] *)
Definition initial_slots : Z := 6.

(** The updater the interval passes to [setSlots]:
    [s => (s > 2 ? s - (Math.random() > 0.8 ? 1 : 0) : s)]. *)
Definition tick (s : Z) : State Z :=
  if (s >? 2)%Z then
    u <- random ;; ret (s - (if Scroll.gt u (8 # 10) then 1 else 0))%Z
  else ret s.

(** The counter after [n] ticks of the interval. *)
Fixpoint ticks (n : nat) : State Z :=
  match n with
  | O => ret initial_slots
  | S n' => s <- ticks n' ;; tick s
  end.

Definition slots (n : nat) (g : rng) : Z := fst (ticks n g).

End CTABox.

(* ================================================================== *)
(** * Sample inputs *)
(* ================================================================== *)

Module Samples.

Local Open Scope string_scope.

(** A filled-in contact form with the given name, email and honeypot. *)
Definition form (n e h : string) : ContactForm.FormState :=
  {| ContactForm.name := lit n;
     ContactForm.company := lit "Analytical Engines";
     ContactForm.email := lit e;
     ContactForm.budget := lit "1500";
     ContactForm.message := lit "Bonjour";
     ContactForm.maintenance := true;
     ContactForm.loading := false;
     ContactForm.success := None;
     ContactForm.error := None;
     ContactForm.hp := lit h |}.

Definition relay_ok : ContactForm.Network :=
  fun _ => Some {| ContactForm.ok := true; ContactForm.text := Some (lit "{}") |}.

Definition relay_refuses : ContactForm.Network :=
  fun _ => Some {| ContactForm.ok := false;
                   ContactForm.text := Some (lit "Too many requests") |}.

Definition relay_down : ContactForm.Network := fun _ => None.

(** A particle that has drifted five units past the left edge of an 800 by
    600 viewport and keeps drifting left. *)
Definition drifter : Particles.Particle :=
  {| Particles.x := -(5); Particles.y := 100;
     Particles.vx := -(1 # 10); Particles.vy := 0;
     Particles.r := 1; Particles.hue := 180;
     Particles.life := 10; Particles.maxLife := 300;
     Particles.alpha := 1 # 10 |}.

(** A random source that always returns one half. *)
Definition halves : Random.rng := Random.seed (fun _ => 1 # 2).

End Samples.

(* ================================================================== *)
(** * Properties of the string primitives *)
(* ================================================================== *)

Section StringFacts.

Lemma trimStart_blank (s : jsstring) : blank s -> trimStart s = [].
Proof.
  induction 1 as [| c s Hc _ IH]; simpl; [reflexivity |].
  now rewrite Hc.
Qed.

Lemma trimStart_nil_blank (s : jsstring) : trimStart s = [] -> blank s.
Proof.
  induction s as [| c s IH]; simpl; intros H.
  - constructor.
  - destruct (isWhiteSpace c) eqn:Hc; [| discriminate].
    constructor; [exact Hc | exact (IH H)].
Qed.

Lemma trimStart_suffix (s : jsstring) :
  exists pre, s = pre ++ trimStart s /\ blank pre.
Proof.
  induction s as [| c s (pre & E & B)]; simpl.
  - exists []. split; [reflexivity | constructor].
  - destruct (isWhiteSpace c) eqn:Hc.
    + exists (c :: pre). split; [simpl; congruence | constructor; assumption].
    + exists []. split; [reflexivity | constructor].
Qed.

Lemma blank_app (s t : jsstring) : blank (s ++ t) <-> blank s /\ blank t.
Proof. apply Forall_app. Qed.

Lemma blank_rev (s : jsstring) : blank (rev s) <-> blank s.
Proof.
  unfold blank. rewrite !Forall_forall.
  split; intros H c Hc; apply H; apply in_rev; [rewrite rev_involutive |]; assumption.
Qed.

(** [name.trim()] is the empty string exactly for the names made of white
    space only. *)
Lemma trim_nil_iff (s : jsstring) : trim s = [] <-> blank s.
Proof.
  unfold trim, trimEnd. split.
  - intros H.
    assert (H1 : trimStart (rev (trimStart s)) = []).
    { rewrite <- (rev_involutive (trimStart _)), H. reflexivity. }
    apply trimStart_nil_blank in H1. rewrite blank_rev in H1.
    destruct (trimStart_suffix s) as (pre & E & B).
    rewrite E. apply blank_app. split; assumption.
  - intros H. rewrite (trimStart_blank s H). reflexivity.
Qed.

Lemma truthy_trim (s : jsstring) : truthy (trim s) = false <-> blank s.
Proof.
  rewrite <- trim_nil_iff. destruct (trim s); simpl; split; congruence.
Qed.

Lemma startsWith_spec (s p : jsstring) :
  startsWith s p = true <-> exists post, s = p ++ post.
Proof.
  revert s. induction p as [| a p IH]; intros s; simpl.
  - split; [exists s; reflexivity | reflexivity].
  - destruct s as [| b s].
    + split; [discriminate | intros (post & E); discriminate].
    + rewrite andb_true_iff, N.eqb_eq, IH. split.
      * intros (-> & post & ->). exists post. reflexivity.
      * intros (post & E). injection E as -> ->. split; [reflexivity | now exists post].
Qed.

(** [s.includes(p)]: [p] occurs somewhere in [s]. *)
Lemma includes_spec (s p : jsstring) :
  includes s p = true <-> exists pre post, s = pre ++ p ++ post.
Proof.
  induction s as [| c s IH]; simpl; rewrite orb_true_iff, startsWith_spec.
  - split.
    + intros [(post & E) | H]; [| discriminate]. exists [], post. exact E.
    + intros (pre & post & E). left.
      destruct pre; [now exists post |]. discriminate.
  - rewrite IH. split.
    + intros [(post & E) | (pre & post & E)].
      * exists [], post. exact E.
      * exists (c :: pre), post. simpl. now rewrite E.
    + intros (pre & post & E). destruct pre as [| c' pre].
      * left. exists post. exact E.
      * right. injection E as _ E. now exists pre, post.
Qed.

End StringFacts.

(* ================================================================== *)
(** * The matcher against the denotation of patterns *)
(* ================================================================== *)

Section RegExpFacts.

Import RegExp.

Lemma many_spec (okc : N -> bool) (k : jsstring -> bool) (s : jsstring) :
  many okc k s = true <->
  exists c l rest, s = c :: l ++ rest /\ okc c = true
                   /\ Forall (fun u => okc u = true) l /\ k rest = true.
Proof.
  induction s as [| c s IH]; simpl.
  - split; [discriminate | intros (? & ? & ? & E & _); discriminate].
  - rewrite andb_true_iff, orb_true_iff, IH. split.
    + intros (Hc & [(c' & l & rest & -> & Hc' & Hl & Hk) | Hk]).
      * exists c, (c' :: l), rest. repeat split; auto.
      * exists c, [], s. repeat split; auto.
    + intros (c0 & l & rest & E & Hc & Hl & Hk). injection E as -> ->.
      split; [assumption |]. destruct l as [| c' l]; simpl.
      * right. assumption.
      * left. inversion Hl; subst. exists c', l, rest. repeat split; auto.
Qed.

Lemma match_here_spec (p : pattern) (s : jsstring) :
  match_here p s = true <-> exists m rest, s = m ++ rest /\ matches p m.
Proof.
  revert s. induction p as [| t p IH]; intros s.
  - simpl. split; [| reflexivity]. intros _. exists [], s. split; [reflexivity | constructor].
  - destruct t as [a | a]; simpl.
    + destruct s as [| c s].
      * split; [discriminate |]. intros (m & rest & E & M).
        inversion M as [| ? ? l1 l2 Mt]; subst. inversion Mt; subst. discriminate.
      * rewrite andb_true_iff, IH. split.
        -- intros (Hc & m & rest & -> & M). exists (c :: m), rest.
           split; [reflexivity |]. apply M_cons with (l1 := [c]); [constructor |]; assumption.
        -- intros (m & rest & E & M).
           inversion M as [| ? ? l1 l2 Mt Mp]; subst. inversion Mt; subst.
           injection E as -> ->. split; [assumption |]. now exists l2, rest.
    + rewrite many_spec. split.
      * intros (c & l & rest & -> & Hc & Hl & Hk).
        apply IH in Hk. destruct Hk as (m & rest' & -> & M).
        exists ((c :: l) ++ m), rest'. split.
        -- simpl. now rewrite app_assoc.
        -- constructor; [constructor |]; assumption.
      * intros (m & rest & -> & M).
        inversion M as [| ? ? l1 l2 Mt Mp]; subst. inversion Mt; subst.
        exists c, l, (l2 ++ rest). repeat split; auto.
        -- simpl. now rewrite app_assoc.
        -- apply IH. now exists l2, rest.
Qed.

(** [re.test(s)] holds exactly when some substring of [s] is in the
    denotation of [re]. *)
Lemma test_spec (p : pattern) (s : jsstring) :
  test p s = true <-> exists pre m post, s = pre ++ m ++ post /\ matches p m.
Proof.
  induction s as [| c s IH]; simpl; rewrite orb_true_iff, match_here_spec.
  - split.
    + intros [(m & rest & E & M) | H]; [| discriminate]. now exists [], m, rest.
    + intros (pre & m & post & E & M). left.
      destruct pre; [| discriminate]. now exists m, post.
  - rewrite IH. split.
    + intros [(m & rest & E & M) | (pre & m & post & E & M)].
      * now exists [], m, rest.
      * exists (c :: pre), m, post. split; [simpl; now rewrite E | assumption].
    + intros (pre & m & post & E & M). destruct pre as [| c' pre].
      * left. now exists m, post.
      * right. injection E as _ E. now exists pre, m, post.
Qed.

Lemma matches_plus_nonspace (l : jsstring) :
  matches_term (Plus NonSpace) l <-> ContactForm.nonspace_run l.
Proof.
  unfold ContactForm.nonspace_run. split.
  - intros M. inversion M as [| a c l' Hc Hl]; subst. split; [discriminate |].
    constructor.
    + simpl in Hc. now apply negb_true_iff.
    + eapply Forall_impl; [| exact Hl]. simpl. intros u Hu. now apply negb_true_iff.
  - intros (Hne & Hl). destruct l as [| c l]; [congruence |].
    inversion Hl; subst. constructor.
    + simpl. now apply negb_true_iff.
    + eapply Forall_impl; [| eassumption]. simpl. intros u Hu. now apply negb_true_iff.
Qed.

Lemma matches_once_chr (k : N) (l : jsstring) :
  matches_term (Once (Chr k)) l <-> l = [k].
Proof.
  split.
  - intros M. inversion M as [a c Hc |]; subst. simpl in Hc.
    apply N.eqb_eq in Hc. now subst.
  - intros ->. constructor. simpl. apply N.eqb_refl.
Qed.

Lemma matches_email_re (m : jsstring) :
  matches ContactForm.email_re m <->
  exists a b c, m = a ++ [64%N] ++ b ++ [46%N] ++ c
                /\ ContactForm.nonspace_run a /\ ContactForm.nonspace_run b
                /\ ContactForm.nonspace_run c.
Proof.
  unfold ContactForm.email_re. split.
  - intros M.
    inversion M as [| ? ? a r1 Ma M1]; subst.
    inversion M1 as [| ? ? at_ r2 Mat M2]; subst.
    inversion M2 as [| ? ? b r3 Mb M3]; subst.
    inversion M3 as [| ? ? dot r4 Mdot M4]; subst.
    inversion M4 as [| ? ? c r5 Mc M5]; subst.
    inversion M5; subst.
    apply matches_once_chr in Mat, Mdot. subst.
    apply matches_plus_nonspace in Ma, Mb, Mc.
    exists a, b, c. rewrite app_nil_r.
    split; [reflexivity | split; [assumption | split; assumption]].
  - intros (a & b & c & -> & Ha & Hb & Hc).
    rewrite <- (app_nil_r c).
    apply M_cons; [now apply matches_plus_nonspace |].
    apply M_cons; [now apply matches_once_chr |].
    apply M_cons; [now apply matches_plus_nonspace |].
    apply M_cons; [now apply matches_once_chr |].
    apply M_cons; [now apply matches_plus_nonspace | apply M_nil].
Qed.

(** [validateEmail] accepts exactly the strings of the shape its pattern
    spells out. *)
Lemma validateEmail_spec (e : jsstring) :
  ContactForm.validateEmail e = true <-> ContactForm.EmailShaped e.
Proof.
  unfold ContactForm.validateEmail, ContactForm.EmailShaped.
  rewrite test_spec. split.
  - intros (pre & m & post & -> & M). apply matches_email_re in M.
    destruct M as (a & b & c & -> & Ha & Hb & Hc).
    exists pre, a, b, c, post.
    split; [| split; [assumption | split; assumption]].
    f_equal. rewrite <- !app_assoc. reflexivity.
  - intros (pre & a & b & c & post & -> & Ha & Hb & Hc).
    exists pre, (a ++ [64%N] ++ b ++ [46%N] ++ c), post. split.
    + f_equal. rewrite <- !app_assoc. reflexivity.
    + apply matches_email_re. now exists a, b, c.
Qed.

End RegExpFacts.

(* ================================================================== *)
(** * The contact form's submit handler *)
(* ================================================================== *)

Section ContactFormFacts.

Import ContactForm.
Local Open Scope string_scope.
Local Open Scope list_scope.

(** ** The four ways through [handleSubmit] *)

Lemma handleSubmit_name (net : Network) (st : FormState) :
  truthy (trim (name st)) = false ->
  handleSubmit net st =
  ([PreventDefault; SetError None; SetSuccess None;
    SetError (Some msg_name_required)], inr tt).
Proof. intros H. unfold handleSubmit. rewrite H. reflexivity. Qed.

Lemma handleSubmit_email (net : Network) (st : FormState) :
  truthy (trim (name st)) = true -> validateEmail (email st) = false ->
  handleSubmit net st =
  ([PreventDefault; SetError None; SetSuccess None;
    SetError (Some msg_email_invalid)], inr tt).
Proof. intros H1 H2. unfold handleSubmit. rewrite H1, H2. reflexivity. Qed.

Lemma handleSubmit_hp (net : Network) (st : FormState) :
  truthy (trim (name st)) = true -> validateEmail (email st) = true ->
  truthy (hp st) = true ->
  handleSubmit net st =
  ([PreventDefault; SetError None; SetSuccess None; SetError (Some msg_bot)], inr tt).
Proof. intros H1 H2 H3. unfold handleSubmit. rewrite H1, H2, H3. reflexivity. Qed.

Lemma passes_validation_inv (st : FormState) :
  passes_validation st = true ->
  truthy (trim (name st)) = true /\ validateEmail (email st) = true /\ hp st = [].
Proof.
  unfold passes_validation. rewrite !andb_true_iff, negb_true_iff.
  intros ((H1 & H2) & H3). repeat split; try assumption.
  destruct (hp st); [reflexivity | discriminate].
Qed.

Lemma handleSubmit_sent_ok (net : Network) (st : FormState) :
  passes_validation st = true -> responded_ok (net (request st)) = true ->
  handleSubmit net st =
  ([PreventDefault; SetError None; SetSuccess None; SetLoading true;
    Fetch (request st);
    SetSuccess (Some msg_thanks); SetName (lit ""); SetCompany (lit "");
    SetEmail (lit ""); SetMessage (lit ""); SetMaintenance false;
    SetBudget (lit "749");
    SetLoading false], inr tt).
Proof.
  intros V R. destruct (passes_validation_inv st V) as (H1 & H2 & H3).
  unfold handleSubmit, fetch. rewrite H1, H2, H3. simpl.
  destruct (net (request st)) as [res |]; simpl in *; [| discriminate].
  rewrite R. reflexivity.
Qed.

Lemma handleSubmit_sent_failed (net : Network) (st : FormState) :
  passes_validation st = true -> responded_ok (net (request st)) = false ->
  exists logs msg,
    (msg = msg_send_failed \/ msg = msg_network) /\
    handleSubmit net st =
    ([PreventDefault; SetError None; SetSuccess None; SetLoading true;
      Fetch (request st); ConsoleError logs; SetError (Some msg);
      SetLoading false], inr tt).
Proof.
  intros V R. destruct (passes_validation_inv st V) as (H1 & H2 & H3).
  unfold handleSubmit, fetch. rewrite H1, H2, H3. simpl.
  destruct (net (request st)) as [res |]; simpl in *.
  - rewrite R. simpl. unfold res_text. destruct (text res) as [body |]; simpl.
    + exists [LogText (lit "Web3Forms error"); LogText body], msg_send_failed.
      split; [now left | reflexivity].
    + exists [LogExn BodyRejected], msg_network. split; [now right | reflexivity].
  - exists [LogExn FetchRejected], msg_network. split; [now right | reflexivity].
Qed.

(** C1. Whatever the relay would answer, submitting with a name that is
    empty or made of white space only performs no network call, and leaves the
    error cell holding the name-required message. *)
Theorem handleSubmit_blank_name (net : Network) (st : FormState) :
  blank (name st) ->
  fetches (trace (handleSubmit net st)) = []
  /\ error (after st (handleSubmit net st)) = Some msg_name_required.
Proof.
  intros B. apply truthy_trim in B.
  rewrite (handleSubmit_name net st B). split; reflexivity.
Qed.

Lemma handleSubmit_blank_name_witness :
  let st := Samples.form "   " "ada@example.org" "" in
  blank (name st)
  /\ fetches (trace (handleSubmit Samples.relay_ok st)) = []
  /\ error (after st (handleSubmit Samples.relay_ok st)) = Some msg_name_required.
Proof.
  intros st.
  assert (B : blank (name st)) by (repeat constructor).
  split; [exact B | exact (handleSubmit_blank_name Samples.relay_ok st B)].
Defined.

(** C3, as amended. With a name that is not blank (not empty once trimmed)
    and an email that is not of the shape non-space units, at sign, non-space
    units, dot, non-space units, the handler leaves the error cell holding the
    invalid-email message and performs no network call. *)
Theorem handleSubmit_bad_email (net : Network) (st : FormState) :
  ~ blank (name st) -> ~ EmailShaped (email st) ->
  error (after st (handleSubmit net st)) = Some msg_email_invalid
  /\ fetches (trace (handleSubmit net st)) = [].
Proof.
  intros NB NE.
  assert (H1 : truthy (trim (name st)) = true).
  { destruct (truthy (trim (name st))) eqn:E; [reflexivity |].
    apply truthy_trim in E. contradiction. }
  assert (H2 : validateEmail (email st) = false).
  { destruct (validateEmail (email st)) eqn:E; [| reflexivity].
    apply validateEmail_spec in E. contradiction. }
  rewrite (handleSubmit_email net st H1 H2). split; reflexivity.
Qed.

Lemma handleSubmit_bad_email_witness :
  let st := Samples.form "Ada" "ada.example.org" "" in
  ~ blank (name st) /\ ~ EmailShaped (email st)
  /\ error (after st (handleSubmit Samples.relay_ok st)) = Some msg_email_invalid
  /\ fetches (trace (handleSubmit Samples.relay_ok st)) = [].
Proof.
  intros st.
  assert (NB : ~ blank (name st)).
  { intros B. apply truthy_trim in B. discriminate B. }
  assert (NE : ~ EmailShaped (email st)).
  { intros E. apply validateEmail_spec in E. discriminate E. }
  split; [exact NB | split; [exact NE |]].
  exact (handleSubmit_bad_email Samples.relay_ok st NB NE).
Defined.

(** C3 as it is worded asks for a non-empty name only.  A name of one space
    is not empty, the email below has no at sign, and the handler stops at the
    name test: the error cell holds the name-required message, not the
    invalid-email one. *)
Lemma handleSubmit_space_name_bad_email :
  let st := Samples.form " " "ada.example.org" "" in
  name st <> [] /\ ~ EmailShaped (email st)
  /\ error (after st (handleSubmit Samples.relay_down st)) = Some msg_name_required
  /\ error (after st (handleSubmit Samples.relay_down st)) <> Some msg_email_invalid.
Proof.
  intros st. split; [discriminate | split; [| split]].
  - intros E. apply validateEmail_spec in E. discriminate E.
  - reflexivity.
  - discriminate.
Qed.

(** C4. With a non-empty honeypot the handler performs no network call,
    whatever the other fields hold; it stops at one of the three local
    messages. *)
Theorem handleSubmit_honeypot (net : Network) (st : FormState) :
  hp st <> [] ->
  fetches (trace (handleSubmit net st)) = []
  /\ In (error (after st (handleSubmit net st)))
        [Some msg_name_required; Some msg_email_invalid; Some msg_bot].
Proof.
  intros H.
  assert (H3 : truthy (hp st) = true) by (destruct (hp st); [congruence | reflexivity]).
  destruct (truthy (trim (name st))) eqn:H1.
  - destruct (validateEmail (email st)) eqn:H2.
    + rewrite (handleSubmit_hp net st H1 H2 H3). simpl. auto.
    + rewrite (handleSubmit_email net st H1 H2). simpl. auto.
  - rewrite (handleSubmit_name net st H1). simpl. auto.
Qed.

Lemma handleSubmit_honeypot_witness :
  let st := Samples.form "Ada" "ada@example.org" "http://spam.example" in
  hp st <> []
  /\ fetches (trace (handleSubmit Samples.relay_ok st)) = []
  /\ In (error (after st (handleSubmit Samples.relay_ok st)))
         [Some msg_name_required; Some msg_email_invalid; Some msg_bot].
Proof.
  intros st.
  assert (H : hp st <> []) by discriminate.
  split; [exact H | exact (handleSubmit_honeypot Samples.relay_ok st H)].
Defined.

(** C5. When the three local validations pass and the relay answers the POST
    with an OK response, the handler sends that one request, and afterwards
    every field holds its initial value (name, company, email and message
    empty, maintenance off, budget 749, honeypot empty) and the success cell
    holds the thank-you message. *)
Theorem handleSubmit_success_resets (net : Network) (st : FormState) :
  passes_validation st = true -> responded_ok (net (request st)) = true ->
  let st' := after st (handleSubmit net st) in
  fields st' = (lit "", lit "", lit "", lit "", false, lit "749", lit "")
  /\ fields st' = fields initial
  /\ success st' = Some msg_thanks
  /\ error st' = None /\ loading st' = false
  /\ fetches (trace (handleSubmit net st)) = [request st].
Proof.
  intros V R. destruct (passes_validation_inv st V) as (_ & _ & H3).
  rewrite (handleSubmit_sent_ok net st V R).
  unfold after, trace, fields. simpl. rewrite H3. repeat split; reflexivity.
Qed.

Lemma handleSubmit_success_resets_witness :
  let st := Samples.form "Ada" "ada@example.org" "" in
  let st' := after st (handleSubmit Samples.relay_ok st) in
  passes_validation st = true
  /\ responded_ok (Samples.relay_ok (request st)) = true
  /\ fields st' = (lit "", lit "", lit "", lit "", false, lit "749", lit "")
  /\ fields st' = fields initial
  /\ success st' = Some msg_thanks
  /\ error st' = None /\ loading st' = false
  /\ fetches (trace (handleSubmit Samples.relay_ok st)) = [request st].
Proof.
  intros st st'.
  assert (V : passes_validation st = true) by reflexivity.
  assert (R : responded_ok (Samples.relay_ok (request st)) = true) by reflexivity.
  split; [exact V | split; [exact R |]].
  exact (handleSubmit_success_resets Samples.relay_ok st V R).
Defined.

(** C7. When the three local validations pass and the POST fails (the relay
    answers with a non-OK response, or the call throws), the handler has sent
    that one request and no other, the error cell holds one of the two generic
    failure messages, and every field is as it was. *)
Theorem handleSubmit_failure_keeps_fields (net : Network) (st : FormState) :
  passes_validation st = true -> responded_ok (net (request st)) = false ->
  let st' := after st (handleSubmit net st) in
  (error st' = Some msg_send_failed \/ error st' = Some msg_network)
  /\ success st' = None /\ loading st' = false
  /\ fields st' = fields st
  /\ fetches (trace (handleSubmit net st)) = [request st].
Proof.
  intros V R.
  destruct (handleSubmit_sent_failed net st V R) as (logs & msg & Hm & E).
  rewrite E. unfold after, trace, fields. simpl.
  repeat split; try reflexivity.
  destruct Hm as [-> | ->]; [now left | now right].
Qed.

Lemma handleSubmit_failure_keeps_fields_witness :
  let st := Samples.form "Ada" "ada@example.org" "" in
  let st' := after st (handleSubmit Samples.relay_refuses st) in
  passes_validation st = true
  /\ responded_ok (Samples.relay_refuses (request st)) = false
  /\ (error st' = Some msg_send_failed \/ error st' = Some msg_network)
  /\ success st' = None /\ loading st' = false
  /\ fields st' = fields st
  /\ fetches (trace (handleSubmit Samples.relay_refuses st)) = [request st].
Proof.
  intros st st'.
  assert (V : passes_validation st = true) by reflexivity.
  assert (R : responded_ok (Samples.relay_refuses (request st)) = false) by reflexivity.
  split; [exact V | split; [exact R |]].
  exact (handleSubmit_failure_keeps_fields Samples.relay_refuses st V R).
Defined.

(** The two failure messages, each on its own path: a non-OK response whose
    body can be read, and a call that throws. *)
Example handleSubmit_refused_message :
  let st := Samples.form "Ada" "ada@example.org" "" in
  error (after st (handleSubmit Samples.relay_refuses st)) = Some msg_send_failed
  /\ error (after st (handleSubmit Samples.relay_down st)) = Some msg_network.
Proof. split; reflexivity. Qed.

End ContactFormFacts.

(* ================================================================== *)
(** * Scroll progress *)
(* ================================================================== *)

Section ScrollFacts.

Import Scroll.
Local Open Scope Q_scope.

Lemma gt_spec (a b : Q) : gt a b = true <-> b < a.
Proof.
  unfold gt. rewrite (Qgt_alt a b).
  destruct (a ?= b); split; congruence.
Qed.

Lemma gt_false (a b : Q) : gt a b = false <-> a <= b.
Proof.
  rewrite <- not_true_iff_false, gt_spec. split.
  - apply Qnot_lt_le.
  - apply Qle_not_lt.
Qed.

Lemma clamp_bounds (v a b : Q) : a <= b -> a <= clamp v a b <= b.
Proof.
  intros Hab. unfold clamp. split.
  - apply Q.le_max_l.
  - apply Q.max_lub; [assumption | apply Q.le_min_l].
Qed.

Lemma clamp_below (v a b : Q) : a <= b -> v <= a -> clamp v a b == a.
Proof.
  intros Hab Hv. unfold clamp. apply Q.max_l.
  rewrite Q.min_r by (eapply Qle_trans; eassumption). assumption.
Qed.

Lemma clamp_inside (v a b : Q) : a <= v <= b -> clamp v a b == v.
Proof.
  intros (Ha & Hb). unfold clamp.
  rewrite Q.min_r by assumption. now apply Q.max_r.
Qed.

Lemma clamp_above (v a b : Q) : a <= b -> b <= v -> clamp v a b == b.
Proof.
  intros Hab Hv. unfold clamp.
  rewrite Q.min_l by assumption. now apply Q.max_r.
Qed.

(** C6. Whatever the scroll offset and the page and viewport heights, the
    progress [handleScroll] sets lies in [0, 1]; it is 0 when the offset is 0
    and whenever the scrollable height is not positive; otherwise it is the
    offset over the scrollable height, cut to 0 below 0 and to 1 above 1. *)
Theorem handleScroll_progress (scrollHeight innerHeight scrollY : Q) :
  let total := scrollHeight - innerHeight in
  let progress := handleScroll scrollHeight innerHeight scrollY in
  0 <= progress <= 1
  /\ (scrollY == 0 -> progress == 0)
  /\ (total <= 0 -> progress == 0)
  /\ (0 < total ->
      (scrollY / total <= 0 -> progress == 0)
      /\ (0 <= scrollY / total <= 1 -> progress == scrollY / total)
      /\ (1 <= scrollY / total -> progress == 1)).
Proof.
  intros total progress. subst progress. unfold handleScroll. fold total.
  assert (H01 : 0 <= 1) by discriminate.
  split; [apply clamp_bounds; exact H01 |].
  destruct (gt total 0) eqn:G.
  - apply gt_spec in G. split; [| split].
    + intros H0.
      assert (Hv : scrollY / total == 0).
      { unfold Qdiv. rewrite H0. apply Qmult_0_l. }
      apply clamp_below; [exact H01 | rewrite Hv; apply Qle_refl].
    + intros Hle. exfalso. exact (Qlt_not_le _ _ G Hle).
    + intros _. split; [| split].
      * intros Hv. now apply clamp_below.
      * intros Hv. now apply clamp_inside.
      * intros Hv. now apply clamp_above.
  - apply gt_false in G. split; [| split].
    + intros _. reflexivity.
    + intros _. reflexivity.
    + intros Hpos. exfalso. exact (Qlt_not_le _ _ Hpos G).
Qed.

End ScrollFacts.

(* ================================================================== *)
(** * The real-estate filter *)
(* ================================================================== *)

Section RealEstateFacts.

Import RealEstate.
Local Open Scope Z_scope.

Variable toLowerCase : jsstring -> jsstring.

Lemma keep_spec (query : jsstring) (filters : Filters) (h : House) :
  keep toLowerCase query filters h = true <-> wanted toLowerCase query filters h.
Proof.
  unfold keep, wanted, contains_ci.
  rewrite !andb_true_iff, Z.leb_le, Z.geb_le, includes_spec.
  split.
  - intros ((H1 & H2) & H3). repeat split; [assumption | lia | assumption].
  - intros (H1 & H2 & H3). repeat split; [assumption | lia | assumption].
Qed.

(** C2. For every query, minimum bedroom count and maximum price, the
    results are exactly the sample listings whose price is at most the
    maximum, whose bedroom count is at least the minimum and whose lower-cased
    title contains the lower-cased query, each of them once; and the
    no-results line is rendered exactly when there are none. *)
Theorem results_exact (query : jsstring) (filters : Filters) :
  (forall h, In h (results toLowerCase query filters) <->
             In h sampleHouses /\ wanted toLowerCase query filters h)
  /\ NoDup (results toLowerCase query filters)
  /\ (results toLowerCase query filters = [] ->
      render toLowerCase query filters = [NoResults])
  /\ (results toLowerCase query filters <> [] ->
      ~ In NoResults (render toLowerCase query filters)).
Proof.
  split; [| split; [| split]].
  - intros h. unfold results. rewrite filter_In, keep_spec. reflexivity.
  - apply NoDup_filter. unfold sampleHouses.
    repeat constructor; simpl; intuition discriminate.
  - intros E. unfold render. rewrite E. reflexivity.
  - intros NE. unfold render.
    destruct (results toLowerCase query filters) as [| r rs]; [congruence |].
    simpl. intros [H | H]; [discriminate |].
    apply in_app_or in H. destruct H as [H | H]; [| contradiction].
    apply in_map_iff in H. destruct H as (? & ? & _). discriminate.
Qed.

(** The filter on a few inputs, lower-casing Latin-1. *)
Example results_loft :
  map id (results toLowerCase_latin1 (lit "LOFT") initial_filters) = [1].
Proof. reflexivity. Qed.

Example results_everything :
  map id (results toLowerCase_latin1 (lit "")
            {| min_beds := 0; maxPrice := 2000000 |}) = [1; 2; 3].
Proof. reflexivity. Qed.

Example render_nothing :
  render toLowerCase_latin1 (lit "chalet") initial_filters = [NoResults].
Proof. reflexivity. Qed.

End RealEstateFacts.

(* ================================================================== *)
(** * The particle field *)
(* ================================================================== *)

Section ParticleFacts.

Import Random Particles.
Local Open Scope Q_scope.

Local Arguments reset : simpl never.
Local Arguments advance : simpl never.

Lemma reset_calls (w h : Z) (g : rng) :
  calls (snd (reset w h g)) = (8 + calls g)%nat.
Proof. reflexivity. Qed.

Lemma reset_life (w h : Z) (g : rng) : life (fst (reset w h g)) = 0.
Proof. reflexivity. Qed.

Lemma expired_spec (p : Particle) : expired p = true <-> maxLife p < life p.
Proof. apply gt_spec. Qed.

Lemma escaped_spec (w h : Z) (p : Particle) :
  escaped w h p = true <->
  x p < -(10) \/ inject_Z w + 10 < x p \/ y p < -(10) \/ inject_Z h + 10 < y p.
Proof.
  unfold escaped. rewrite !orb_true_iff, !gt_spec. tauto.
Qed.

Lemma respawn_due_spec (w h : Z) (p1 : Particle) :
  respawn_due w h p1 <-> expired p1 || escaped w h p1 = true.
Proof.
  unfold respawn_due. rewrite orb_true_iff, expired_spec, escaped_spec. tauto.
Qed.

(** The two outcomes of [step]: the advanced particle with the random source
    untouched, or the result of a [reset]. *)
Lemma step_cases (w h : Z) (p : Particle) (g : rng) :
  (expired (advance p) || escaped w h (advance p) = false
   /\ step w h p g = (advance p, g))
  \/ (expired (advance p) || escaped w h (advance p) = true
      /\ exists g', step w h p g = reset w h g'
                    /\ (calls g <= calls g')%nat).
Proof.
  assert (U : step w h p g =
              let (p2, g1) := if expired (advance p) then reset w h g
                              else (advance p, g) in
              if escaped w h p2 then reset w h g1 else (p2, g1)).
  { unfold step, bind, ret. destruct (expired (advance p)).
    - destruct (reset w h g) as [p2 g1]. destruct (escaped w h p2); reflexivity.
    - destruct (escaped w h (advance p)); reflexivity. }
  rewrite U. clear U.
  destruct (expired (advance p)) eqn:E1.
  - right. split; [reflexivity |].
    destruct (reset w h g) as [p2 g1] eqn:R.
    assert (C1 : calls g1 = (8 + calls g)%nat).
    { change g1 with (snd (p2, g1)). rewrite <- R. apply reset_calls. }
    destruct (escaped w h p2).
    + exists g1. split; [reflexivity | lia].
    + exists g. split; [symmetry; exact R | lia].
  - rewrite orb_false_l. destruct (escaped w h (advance p)) eqn:E2.
    + right. split; [reflexivity |]. exists g. split; [reflexivity | lia].
    + left. split; reflexivity.
Qed.

(** C8, as amended. A step adds the velocity to the position and one to the
    life counter; it respawns the particle (runs [reset], leaving a particle
    drawn afresh from the random source) exactly when the counter so
    incremented exceeds the maximum lifetime or the position so advanced lies
    more than 10 units outside the viewport on some side; otherwise the
    particle keeps its velocity, radius, alpha, hue and maximum lifetime. *)
Theorem step_respawns_exactly (w h : Z) (p : Particle) (g : rng) :
  let p1 := advance p in
  (x p1 = x p + vx p /\ y p1 = y p + vy p /\ life p1 = life p + 1)
  /\ (respawned w h p g <-> respawn_due w h p1)
  /\ (respawned w h p g ->
      exists g', step w h p g = reset w h g')
  /\ (~ respawned w h p g ->
      step w h p g = (p1, g)
      /\ vx p1 = vx p /\ vy p1 = vy p /\ r p1 = r p /\ alpha p1 = alpha p
      /\ hue p1 = hue p /\ maxLife p1 = maxLife p).
Proof.
  intros p1. subst p1. split; [repeat split |].
  unfold respawned. rewrite respawn_due_spec.
  destruct (step_cases w h p g) as [(C & E) | (C & g' & E & L)]; rewrite E, C.
  - simpl. split; [| split].
    + split; [congruence | discriminate].
    + congruence.
    + intros _. repeat split.
  - rewrite reset_calls. split; [| split].
    + split; [reflexivity | lia].
    + intros _. now exists g'.
    + intros N. exfalso. apply N. lia.
Qed.

(** C8 as it is worded has the particle respawn as soon as its position
    leaves the viewport.  The drifter is already left of the viewport before
    the step and further left after it, and the step does not respawn it: it
    returns the advanced particle and draws nothing from the random source. *)
Lemma step_outside_viewport_no_respawn :
  outside_viewport 800 600 Samples.drifter
  /\ outside_viewport 800 600 (advance Samples.drifter)
  /\ ~ maxLife (advance Samples.drifter) < life (advance Samples.drifter)
  /\ ~ respawned 800 600 Samples.drifter Samples.halves
  /\ step 800 600 Samples.drifter Samples.halves
     = (advance Samples.drifter, Samples.halves).
Proof.
  split; [left; reflexivity | split; [left; reflexivity | split; [| split]]].
  - intros H. discriminate H.
  - intros H. apply H. reflexivity.
  - reflexivity.
Qed.

(** The same particle ten more units out is respawned. *)
Example step_beyond_margin_respawns :
  let p := {| x := -(10); y := 100; vx := -(1 # 10); vy := 0; r := 1; hue := 180;
              life := 10; maxLife := 300; alpha := 1 # 10 |} in
  respawned 800 600 p Samples.halves
  /\ x (fst (step 800 600 p Samples.halves)) == 400
  /\ life (fst (step 800 600 p Samples.halves)) = 0.
Proof.
  split; [| split].
  - intros H. discriminate H.
  - reflexivity.
  - reflexivity.
Qed.

Lemma push_new_length (n : nat) (w h : Z) (ps : list Particle) (g : rng) :
  List.length (fst (push_new n w h ps g)) = (List.length ps + n)%nat.
Proof.
  revert ps g. induction n as [| n IH]; intros ps g; simpl.
  - unfold ret. simpl. lia.
  - unfold bind. destruct (reset w h g) as [p g1].
    rewrite IH, length_app. simpl. lia.
Qed.

(** [Math.round] gives the integer nearest to its argument, the upper one
    of the two at a half. *)
Lemma Math_round_nearest (q : Q) :
  q - (1 # 2) < inject_Z (Math_round q) /\ inject_Z (Math_round q) <= q + (1 # 2).
Proof.
  unfold Math_round. split.
  - pose proof (Qlt_floor (q + (1 # 2))) as H.
    rewrite inject_Z_plus in H.
    apply Qplus_lt_l with (z := 1). 
    eapply Qle_lt_trans; [| exact H].
    ring_simplify. apply Qle_refl.
  - apply Qfloor_le.
Qed.

(** C9. On mount (canvas and context present) the field takes the size of
    the viewport and holds [round(width * height / 45000)] particles; a resize
    sets the canvas and the field to the new size and leaves exactly the
    particles a fresh mount at that size would draw from the same random
    source, none of the old ones, so their number follows the same formula. *)
Theorem mount_and_resize_counts :
  (forall (iw ih : Z) (g : rng),
      exists f g',
        mount true true iw ih g = (Some f, g')
        /\ width f = iw /\ height f = ih
        /\ canvas_width f = iw /\ canvas_height f = ih
        /\ List.length (particles f)
           = Z.to_nat (Math_round (inject_Z (iw * ih) / 45000)))
  /\ (forall (iw ih : Z) (f : Field) (g : rng),
        let f' := fst (onResize iw ih f g) in
        width f' = iw /\ height f' = ih
        /\ canvas_width f' = iw /\ canvas_height f' = ih
        /\ List.length (particles f')
           = Z.to_nat (Math_round (inject_Z (iw * ih) / 45000))
        /\ mount true true iw ih g = (Some f', snd (onResize iw ih f g))).
Proof.
  split.
  - intros iw ih g. unfold mount, bind, ret. simpl.
    destruct (push_new (Z.to_nat (particleCount iw ih)) iw ih [] g) as [ps g1] eqn:E.
    eexists. eexists. split; [reflexivity |]. simpl. repeat split.
    change ps with (fst (ps, g1)). rewrite <- E, push_new_length. reflexivity.
  - intros iw ih f g f'. subst f'. unfold onResize, mount, bind, ret. simpl.
    destruct (push_new (Z.to_nat (particleCount iw ih)) iw ih [] g) as [ps g1] eqn:E.
    simpl. repeat split.
    change ps with (fst (ps, g1)). rewrite <- E, push_new_length. reflexivity.
Qed.

End ParticleFacts.

(* ================================================================== *)
(** * The limited-slots counter *)
(* ================================================================== *)

Section CTABoxFacts.

Import Random CTABox.
Local Open Scope Z_scope.

Lemma tick_range (s : Z) (g : rng) :
  s - 1 <= fst (tick s g) <= s /\ (2 <= s -> 2 <= fst (tick s g)).
Proof.
  unfold tick. destruct (s >? 2) eqn:E.
  - apply Z.gtb_lt in E. unfold bind, random, ret. simpl.
    destruct (Scroll.gt _ _); lia.
  - unfold ret. simpl. lia.
Qed.

Lemma slots_succ (n : nat) (g : rng) :
  slots (S n) g = fst (tick (slots n g) (snd (ticks n g))).
Proof.
  unfold slots. simpl. unfold bind. destruct (ticks n g) as [s g1]. reflexivity.
Qed.

(** C10. The counter starts at 6; whatever the random draws, after any
    number of ticks it lies between 2 and 6, and one more tick leaves it
    unchanged or one lower. *)
Theorem slots_between_2_and_6 (g : rng) (n : nat) :
  slots 0 g = 6
  /\ 2 <= slots n g <= 6
  /\ slots n g - 1 <= slots (S n) g <= slots n g.
Proof.
  split; [reflexivity |].
  assert (B : 2 <= slots n g <= 6).
  { induction n as [| n IH].
    - unfold slots. simpl. unfold initial_slots. lia.
    - rewrite slots_succ.
      pose proof (tick_range (slots n g) (snd (ticks n g))). lia. }
  split; [exact B |].
  rewrite slots_succ.
  pose proof (tick_range (slots n g) (snd (ticks n g))). lia.
Qed.

End CTABoxFacts.

(* ================================================================== *)
(** * More on the submit handler: every path at once *)
(* ================================================================== *)

Section HandlerPaths.

Import ContactForm.
Local Open Scope string_scope.
Local Open Scope list_scope.

Lemma passes_validation_intro (st : FormState) :
  truthy (trim (name st)) = true -> validateEmail (email st) = true ->
  truthy (hp st) = false -> passes_validation st = true.
Proof. intros H1 H2 H3. unfold passes_validation. now rewrite H1, H2, H3. Qed.

Lemma passes_validation_false (st : FormState) :
  truthy (trim (name st)) = false \/ validateEmail (email st) = false
  \/ truthy (hp st) = true ->
  passes_validation st = false.
Proof.
  unfold passes_validation. intros [H | [H | H]]; rewrite H.
  - reflexivity.
  - now rewrite andb_false_r.
  - now rewrite andb_false_r.
Qed.

(** The five ways a run can go, each with the calls it makes. *)
Inductive path (net : Network) (st : FormState) : Prop :=
| P_name :
    passes_validation st = false ->
    handleSubmit net st =
    ([PreventDefault; SetError None; SetSuccess None;
      SetError (Some msg_name_required)], inr tt) ->
    path net st
| P_email :
    passes_validation st = false ->
    handleSubmit net st =
    ([PreventDefault; SetError None; SetSuccess None;
      SetError (Some msg_email_invalid)], inr tt) ->
    path net st
| P_bot :
    passes_validation st = false ->
    handleSubmit net st =
    ([PreventDefault; SetError None; SetSuccess None; SetError (Some msg_bot)],
     inr tt) ->
    path net st
| P_sent :
    passes_validation st = true -> responded_ok (net (request st)) = true ->
    hp st = [] ->
    handleSubmit net st =
    ([PreventDefault; SetError None; SetSuccess None; SetLoading true;
      Fetch (request st);
      SetSuccess (Some msg_thanks); SetName (lit ""); SetCompany (lit "");
      SetEmail (lit ""); SetMessage (lit ""); SetMaintenance false;
      SetBudget (lit "749");
      SetLoading false], inr tt) ->
    path net st
| P_failed logs msg :
    passes_validation st = true -> responded_ok (net (request st)) = false ->
    handleSubmit net st =
    ([PreventDefault; SetError None; SetSuccess None; SetLoading true;
      Fetch (request st); ConsoleError logs; SetError (Some msg);
      SetLoading false], inr tt) ->
    path net st.

Lemma handleSubmit_path (net : Network) (st : FormState) : path net st.
Proof.
  destruct (truthy (trim (name st))) eqn:H1.
  - destruct (validateEmail (email st)) eqn:H2.
    + destruct (truthy (hp st)) eqn:H3.
      * apply P_bot; [apply passes_validation_false; auto |].
        now apply handleSubmit_hp.
      * pose proof (passes_validation_intro st H1 H2 H3) as V.
        destruct (responded_ok (net (request st))) eqn:R.
        -- apply P_sent; try assumption.
           ++ now destruct (passes_validation_inv st V) as (_ & _ & ?).
           ++ now apply handleSubmit_sent_ok.
        -- destruct (handleSubmit_sent_failed net st V R) as (logs & msg & _ & E).
           now apply P_failed with logs msg.
    + apply P_email; [apply passes_validation_false; auto |].
      now apply handleSubmit_email.
  - apply P_name; [apply passes_validation_false; auto |].
    now apply handleSubmit_name.
Qed.

(** X1. A run of the handler makes a network call exactly when the three
    local validations pass, and then exactly one: the POST of the payload
    built from the fields. *)
Theorem handleSubmit_fetches_iff_valid (net : Network) (st : FormState) :
  fetches (trace (handleSubmit net st))
  = if passes_validation st then [request st] else [].
Proof.
  destruct (handleSubmit_path net st) as [V E | V E | V E | V R H E | logs msg V R E];
    rewrite E, V; reflexivity.
Qed.

(** X2. Whatever messages were showing before, after a run exactly one of the
    two message cells is set: the success cell (to the thank-you message) when
    the validations passed and the relay answered OK, the error cell
    otherwise. *)
Theorem handleSubmit_one_message (net : Network) (st : FormState) :
  let st' := after st (handleSubmit net st) in
  if passes_validation st && responded_ok (net (request st))
  then success st' = Some msg_thanks /\ error st' = None
  else success st' = None /\ error st' <> None.
Proof.
  destruct (handleSubmit_path net st) as [V E | V E | V E | V R H E | logs msg V R E];
    rewrite E, V; try rewrite R; simpl; split; (reflexivity || discriminate).
Qed.

(** X3. No exception escapes the handler, whatever the relay does, and the
    loading flag is off after every run that got past the validations (and
    untouched by the others). *)
Theorem handleSubmit_never_throws (net : Network) (st : FormState) :
  snd (handleSubmit net st) = inr tt
  /\ loading (after st (handleSubmit net st))
     = (if passes_validation st then false else loading st).
Proof.
  destruct (handleSubmit_path net st) as [V E | V E | V E | V R H E | logs msg V R E];
    rewrite E, V; split; reflexivity.
Qed.

(** X4. The handler clears the form on success only: on every other path
    (a failed validation, a non-OK response, a thrown call) each field is left
    as it was. *)
Theorem handleSubmit_fields (net : Network) (st : FormState) :
  fields (after st (handleSubmit net st))
  = if passes_validation st && responded_ok (net (request st))
    then fields initial else fields st.
Proof.
  destruct (handleSubmit_path net st) as [V E | V E | V E | V R H E | logs msg V R E];
    rewrite E, V; try rewrite R; try reflexivity.
  unfold after, trace, fields. simpl. now rewrite H.
Qed.

End HandlerPaths.

(* ================================================================== *)
(** * More on [validateEmail] *)
(* ================================================================== *)

Section EmailFacts.

Import ContactForm.
Local Open Scope list_scope.

Lemma nth_error_middle (l1 l2 : jsstring) (c : N) :
  nth_error (l1 ++ c :: l2) (List.length l1) = Some c.
Proof.
  rewrite nth_error_app2 by lia. now rewrite Nat.sub_diag.
Qed.

Lemma nonspace_run_length (l : jsstring) : nonspace_run l -> (1 <= List.length l)%nat.
Proof.
  intros (H & _). destruct l; [congruence | simpl; lia].
Qed.

(** X5. The pattern is not anchored: a string the test accepts is still
    accepted with anything put before and after it, white space included. *)
Theorem validateEmail_unanchored (pre e post : jsstring) :
  validateEmail e = true -> validateEmail (pre ++ e ++ post) = true.
Proof.
  rewrite !validateEmail_spec.
  intros (p & a & b & c & q & -> & Ha & Hb & Hc).
  exists (pre ++ p), a, b, c, (q ++ post).
  split; [| split; [assumption | split; assumption]].
  rewrite <- !app_assoc. reflexivity.
Qed.

Lemma validateEmail_unanchored_witness :
  validateEmail (lit "ada@example.org") = true
  /\ validateEmail (lit "to: " ++ lit "ada@example.org" ++ lit " (work)") = true.
Proof.
  assert (H : validateEmail (lit "ada@example.org") = true) by reflexivity.
  split; [exact H |].
  exact (validateEmail_unanchored (lit "to: ") (lit "ada@example.org") (lit " (work)") H).
Defined.

(** X6. On a string without white space the test comes down to positions: it
    accepts exactly when there is an at sign that is not the first unit and,
    at least two places further, a dot that is not the last unit. *)
Theorem validateEmail_positions (e : jsstring) :
  Forall (fun c => isWhiteSpace c = false) e ->
  (validateEmail e = true <->
   exists i j, (0 < i /\ i + 1 < j /\ j + 1 < List.length e)%nat
               /\ nth_error e i = Some 64%N /\ nth_error e j = Some 46%N).
Proof.
  intros NS. rewrite validateEmail_spec. split.
  - intros (pre & a & b & c & post & E & Ha & Hb & Hc).
    pose proof (nonspace_run_length a Ha) as La.
    pose proof (nonspace_run_length b Hb) as Lb.
    pose proof (nonspace_run_length c Hc) as Lc.
    exists (List.length (pre ++ a)), (List.length (pre ++ a ++ [64%N] ++ b)).
    split; [| split].
    + rewrite E. repeat (rewrite ?length_app; simpl). lia.
    + rewrite E.
      replace (pre ++ a ++ [64%N] ++ b ++ [46%N] ++ c ++ post)
        with ((pre ++ a) ++ 64%N :: (b ++ [46%N] ++ c ++ post))
        by (rewrite <- app_assoc; reflexivity).
      apply nth_error_middle.
    + rewrite E.
      replace (pre ++ a ++ [64%N] ++ b ++ [46%N] ++ c ++ post)
        with ((pre ++ a ++ [64%N] ++ b) ++ 46%N :: (c ++ post))
        by (rewrite <- !app_assoc; reflexivity).
      apply nth_error_middle.
  - intros (i & j & (Hi & Hij & Hj) & Ei & Ej).
    destruct (nth_error_split e i Ei) as (l1 & l2 & E & L1).
    assert (Ej' : nth_error l2 (j - i - 1) = Some 46%N).
    { rewrite E in Ej. rewrite nth_error_app2 in Ej by lia.
      rewrite L1 in Ej. replace (j - i)%nat with (S (j - i - 1)) in Ej by lia.
      exact Ej. }
    destruct (nth_error_split l2 (j - i - 1)%nat Ej') as (m1 & m2 & E2 & L2).
    subst e l2.
    rewrite !length_app in Hj. simpl in Hj. rewrite length_app in Hj. simpl in Hj.
    apply Forall_app in NS. destruct NS as (N1 & NS).
    apply Forall_cons_iff in NS. destruct NS as (_ & NS).
    apply Forall_app in NS. destruct NS as (N2 & NS).
    apply Forall_cons_iff in NS. destruct NS as (_ & N3).
    exists [], l1, m1, m2, []. rewrite app_nil_r.
    split; [reflexivity |].
    unfold nonspace_run. repeat split; try assumption.
    + destruct l1; [simpl in L1; lia | discriminate].
    + destruct m1; [simpl in L2; lia | discriminate].
    + destruct m2; [simpl in Hj; lia | discriminate].
Qed.

Lemma validateEmail_positions_witness :
  Forall (fun c => isWhiteSpace c = false) (lit "a@b.c")
  /\ (validateEmail (lit "a@b.c") = true <->
      exists i j, (0 < i /\ i + 1 < j /\ j + 1 < List.length (lit "a@b.c"))%nat
                  /\ nth_error (lit "a@b.c") i = Some 64%N
                  /\ nth_error (lit "a@b.c") j = Some 46%N).
Proof.
  assert (H : Forall (fun c => isWhiteSpace c = false) (lit "a@b.c"))
    by (repeat constructor).
  split; [exact H | exact (validateEmail_positions (lit "a@b.c") H)].
Defined.

End EmailFacts.

(* ================================================================== *)
(** * The progress bar: [ScrollProgressBar] on top of [handleScroll] *)
(* ================================================================== *)

From Stdlib Require DecimalString.

Module ProgressBar.

Local Open Scope string_scope.
Local Open Scope list_scope.

(** [String(n)] for an integer [n]: its decimal digits, with a minus sign
    below zero. *)
Definition Number_toString (z : Z) : jsstring :=
  lit (DecimalString.NilZero.string_of_int (Z.to_int z)).

(** [Math.round(progress * 100)] *)
Definition percent (progress : Q) : Z := Particles.Math_round (progress * 100).

(** The [width] of the bar's style. *)
Definition width (progress : Q) : jsstring :=
  Number_toString (percent progress) ++ lit "%".

End ProgressBar.

Section ProgressFacts.

Import Scroll ProgressBar.
Local Open Scope Q_scope.

Lemma clamp_mono (v1 v2 a b : Q) : v1 <= v2 -> clamp v1 a b <= clamp v2 a b.
Proof.
  intros H. unfold clamp. apply Q.max_le_compat_l, Q.min_le_compat_l, H.
Qed.

(** X7. [clamp] with its bounds in order returns a value between them, leaves
    the values between them alone and is idempotent; with its bounds the
    wrong way round it returns the lower-bound argument, whatever the value. *)
Theorem clamp_contract (v a b : Q) :
  (a <= b ->
   a <= clamp v a b <= b
   /\ (a <= v <= b -> clamp v a b == v)
   /\ clamp (clamp v a b) a b == clamp v a b)
  /\ (b < a -> clamp v a b == a).
Proof.
  split.
  - intros Hab. split; [now apply clamp_bounds | split].
    + apply clamp_inside.
    + apply clamp_inside. now apply clamp_bounds.
  - intros Hba. unfold clamp. apply Q.max_l.
    apply Qle_trans with b; [apply Q.le_min_l | now apply Qlt_le_weak].
Qed.

(** X8. Scrolling further down never lowers the progress: for a fixed page
    and viewport height, the progress is monotone in the scroll offset. *)
Theorem handleScroll_monotone (scrollHeight innerHeight y1 y2 : Q) :
  y1 <= y2 ->
  handleScroll scrollHeight innerHeight y1 <= handleScroll scrollHeight innerHeight y2.
Proof.
  intros H. unfold handleScroll.
  destruct (gt (scrollHeight - innerHeight) 0) eqn:G.
  - apply gt_spec in G. apply clamp_mono.
    unfold Qdiv. apply Qmult_le_compat_r; [exact H |].
    apply Qlt_le_weak, Qinv_lt_0_compat, G.
  - apply Qle_refl.
Qed.

Lemma handleScroll_monotone_witness :
  300 <= 450
  /\ handleScroll 3000 1000 300 <= handleScroll 3000 1000 450.
Proof.
  assert (H : 300 <= 450) by discriminate.
  split; [exact H | exact (handleScroll_monotone 3000 1000 300 450 H)].
Defined.

Lemma percent_range (p : Q) : 0 <= p <= 1 -> (0 <= percent p <= 100)%Z.
Proof.
  intros (H0 & H1). unfold percent, Particles.Math_round. split.
  - change 0%Z with (Qfloor (1 # 2)). apply Qfloor_resp_le.
    rewrite <- (Qplus_0_l (1 # 2)) at 1. apply Qplus_le_l.
    apply Qmult_le_0_compat; [exact H0 | discriminate].
  - change 100%Z with (Qfloor (1 * 100 + (1 # 2))). apply Qfloor_resp_le.
    apply Qplus_le_l. apply Qmult_le_compat_r; [exact H1 | discriminate].
Qed.

Lemma handleScroll_top (scrollHeight innerHeight scrollY : Q) :
  scrollY == 0 -> handleScroll scrollHeight innerHeight scrollY == 0.
Proof.
  intros H0. unfold handleScroll.
  destruct (gt (scrollHeight - innerHeight) 0); [| reflexivity].
  apply clamp_below; [discriminate |].
  unfold Qdiv. rewrite H0, Qmult_0_l. apply Qle_refl.
Qed.

Lemma handleScroll_bottom (scrollHeight innerHeight scrollY : Q) :
  0 < scrollHeight - innerHeight -> scrollHeight - innerHeight <= scrollY ->
  handleScroll scrollHeight innerHeight scrollY == 1.
Proof.
  intros Ht Hy. unfold handleScroll.
  destruct (gt (scrollHeight - innerHeight) 0) eqn:G.
  - apply clamp_above; [discriminate |].
    apply Qle_shift_div_l; [exact Ht | now rewrite Qmult_1_l].
  - apply gt_false in G. exfalso. exact (Qlt_not_le _ _ Ht G).
Qed.

(** X9. For every scroll offset and every page and viewport height the bar's
    width is a whole percentage from 0 to 100: 0 with the offset at 0, and 100
    once the offset has reached the scrollable height. *)
Theorem bar_percent_range (scrollHeight innerHeight scrollY : Q) :
  let total := scrollHeight - innerHeight in
  let pct := percent (handleScroll scrollHeight innerHeight scrollY) in
  (0 <= pct <= 100)%Z
  /\ width (handleScroll scrollHeight innerHeight scrollY)
     = (Number_toString pct ++ lit "%")%list
  /\ (scrollY == 0 -> pct = 0%Z)
  /\ (0 < total -> total <= scrollY -> pct = 100%Z).
Proof.
  intros total pct. subst pct.
  assert (H01 : 0 <= 1) by discriminate.
  split; [| split; [reflexivity | split]].
  - apply percent_range. unfold handleScroll. now apply clamp_bounds.
  - intros H0. unfold percent, Particles.Math_round.
    rewrite (Qfloor_comp _ (1 # 2)); [reflexivity |].
    rewrite (handleScroll_top scrollHeight innerHeight scrollY H0). reflexivity.
  - intros Ht Hy. unfold percent, Particles.Math_round.
    rewrite (Qfloor_comp _ (100 + (1 # 2))); [reflexivity |].
    rewrite (handleScroll_bottom scrollHeight innerHeight scrollY Ht Hy).
    reflexivity.
Qed.

End ProgressFacts.

(* ================================================================== *)
(** * More on the real-estate filter *)
(* ================================================================== *)

Section FilterFacts.

Import RealEstate.
Local Open Scope Z_scope.

Variable toLowerCase : jsstring -> jsstring.

(** X10. Loosening the filters never loses a listing: with the same query,
    every result under a higher bedroom minimum and a lower price maximum is
    still a result under the lower minimum and the higher maximum. *)
Theorem results_loosen (query : jsstring) (strict loose : Filters) :
  min_beds loose <= min_beds strict -> maxPrice strict <= maxPrice loose ->
  incl (results toLowerCase query strict) (results toLowerCase query loose).
Proof.
  intros Hb Hp h. unfold results. rewrite !filter_In, !keep_spec.
  unfold wanted. intros (Hin & H1 & H2 & H3).
  split; [assumption | repeat split; [lia | lia | assumption]].
Qed.

(** X11. With a lower-casing that maps the empty string to itself, the empty
    query filters nothing out: the results are then the sample listings within
    the price and bedroom bounds. *)
Theorem results_empty_query (filters : Filters) :
  toLowerCase [] = [] ->
  forall h, In h (results toLowerCase [] filters) <->
            In h sampleHouses
            /\ price h <= maxPrice filters /\ beds h >= min_beds filters.
Proof.
  intros E h. unfold results. rewrite filter_In, keep_spec.
  unfold wanted, contains_ci. rewrite E. split.
  - intros (Hin & H1 & H2 & _). auto.
  - intros (Hin & H1 & H2). repeat split; try assumption.
    exists [], (toLowerCase (title h)). reflexivity.
Qed.


End FilterFacts.

Lemma results_loosen_witness :
  let strict := RealEstate.initial_filters in
  let loose := {| RealEstate.min_beds := 0; RealEstate.maxPrice := 2000000 |} in
  (RealEstate.min_beds loose <= RealEstate.min_beds strict)%Z
  /\ (RealEstate.maxPrice strict <= RealEstate.maxPrice loose)%Z
  /\ incl (RealEstate.results toLowerCase_latin1 [] strict)
          (RealEstate.results toLowerCase_latin1 [] loose).
Proof.
  intros strict loose.
  assert (Hb : (RealEstate.min_beds loose <= RealEstate.min_beds strict)%Z)
    by discriminate.
  assert (Hp : (RealEstate.maxPrice strict <= RealEstate.maxPrice loose)%Z)
    by discriminate.
  split; [exact Hb | split; [exact Hp |]].
  exact (results_loosen toLowerCase_latin1 [] strict loose Hb Hp).
Defined.

Lemma results_empty_query_witness :
  toLowerCase_latin1 [] = []
  /\ forall h, In h (RealEstate.results toLowerCase_latin1 [] RealEstate.initial_filters)
               <-> In h RealEstate.sampleHouses
                   /\ (RealEstate.price h <= 500000)%Z
                   /\ (RealEstate.beds h >= 2)%Z.
Proof.
  assert (E : toLowerCase_latin1 [] = []) by reflexivity.
  split; [exact E |].
  exact (results_empty_query toLowerCase_latin1 RealEstate.initial_filters E).
Defined.


(* ================================================================== *)
(** * More on the particle field *)
(* ================================================================== *)

From Stdlib Require Import Lqa.

Module ParticleRuns.

Import Random Random.Notations Particles.

(** [Math.random()] returns values from 0 (included) to 1 (excluded). *)
Definition unit_source (g : rng) : Prop :=
  forall n, (0 <= stream g n /\ stream g n < 1)%Q.

(** What the page does to the field after the mount: animation frames and
    viewport resizes, in any order. *)
Inductive event : Type :=
| Frame
| Resize (innerWidth innerHeight : Z).

Definition handle (ev : event) (f : Field) : State Field :=
  match ev with
  | Frame => frame f
  | Resize iw ih => onResize iw ih f
  end.

Fixpoint run (evs : list event) (f : Field) : State Field :=
  match evs with
  | [] => ret f
  | ev :: evs' => f' <- handle ev f ;; run evs' f'
  end.


(** One particle over [n] frames. *)
Fixpoint steps (n : nat) (w h : Z) (p : Particle) : State Particle :=
  match n with
  | O => ret p
  | S n' => p' <- step w h p ;; steps n' w h p'
  end.

(** The ranges [reset] draws from. *)
Definition fresh (w h : Z) (p : Particle) : Prop :=
  (0 <= x p <= inject_Z w /\ 0 <= y p <= inject_Z h
   /\ -(12 # 100) <= vx p < 12 # 100 /\ -(8 # 100) <= vy p < 8 # 100
   /\ 8 # 10 <= r p < 32 # 10 /\ 160 <= hue p < 200
   /\ life p = 0 /\ 120 <= maxLife p < 600
   /\ 5 # 100 <= alpha p < 35 # 100)%Q.

End ParticleRuns.

Section ParticleRunFacts.

Import Random Particles ParticleRuns.
Local Open Scope Q_scope.

Local Arguments reset : simpl never.
Local Arguments advance : simpl never.

Lemma rand_value (u lo hi : Q) :
  0 <= u -> u < 1 -> lo < hi -> lo <= u * (hi - lo) + lo < hi.
Proof.
  intros H0 H1 Hlh.
  assert (Hd : 0 < hi - lo) by lra.
  assert (A : 0 <= u * (hi - lo)).
  { apply Qmult_le_0_compat; [exact H0 | lra]. }
  assert (B : u * (hi - lo) < 1 * (hi - lo)).
  { apply Qmult_lt_compat_r; assumption. }
  lra.
Qed.

Lemma rand_value_le (u lo hi : Q) :
  0 <= u -> u < 1 -> lo <= hi -> lo <= u * (hi - lo) + lo <= hi.
Proof.
  intros H0 H1 Hlh.
  assert (A : 0 <= u * (hi - lo)).
  { apply Qmult_le_0_compat; [exact H0 | lra]. }
  assert (B : u * (hi - lo) <= 1 * (hi - lo)).
  { apply Qmult_le_compat_r; lra. }
  lra.
Qed.

Lemma reset_fresh (w h : Z) (g : rng) :
  unit_source g -> (0 <= w)%Z -> (0 <= h)%Z -> fresh w h (fst (reset w h g)).
Proof.
  intros U Hw Hh.
  assert (Qw : 0 <= inject_Z w) by (change 0 with (inject_Z 0); now rewrite <- Zle_Qle).
  assert (Qh : 0 <= inject_Z h) by (change 0 with (inject_Z 0); now rewrite <- Zle_Qle).
  unfold fresh, reset, rand, bind, random, ret. cbn [fst snd x y vx vy r hue life maxLife alpha stream calls].
  pose proof (U (calls g)) as (A0 & B0).
  pose proof (U (S (calls g))) as (A1 & B1).
  pose proof (U (S (S (calls g)))) as (A2 & B2).
  pose proof (U (S (S (S (calls g))))) as (A3 & B3).
  pose proof (U (S (S (S (S (calls g)))))) as (A4 & B4).
  pose proof (U (S (S (S (S (S (calls g))))))) as (A5 & B5).
  pose proof (U (S (S (S (S (S (S (calls g)))))))) as (A6 & B6).
  pose proof (U (S (S (S (S (S (S (S (calls g))))))))) as (A7 & B7).
  split; [now apply rand_value_le |].
  split; [now apply rand_value_le |].
  split; [now apply rand_value |].
  split; [now apply rand_value |].
  split; [now apply rand_value |].
  split.
  { pose proof (rand_value (stream g (S (S (S (S (S (calls g)))))))
                           (-(20)) 20 A5 B5 eq_refl). lra. }
  split; [reflexivity |].
  split; [now apply rand_value |].
  now apply rand_value.
Qed.



End ParticleRunFacts.

Section ParticleStepFacts.

Import Random Particles ParticleRuns.
Local Open Scope Q_scope.

Local Arguments reset : simpl never.
Local Arguments advance : simpl never.

Lemma step_unfold (w h : Z) (p : Particle) (g : rng) :
  step w h p g =
  let (p2, g1) := if expired (advance p) then reset w h g else (advance p, g) in
  if escaped w h p2 then reset w h g1 else (p2, g1).
Proof.
  unfold step, bind, ret. destruct (expired (advance p)).
  - destruct (reset w h g) as [p2 g1]. destruct (escaped w h p2); reflexivity.
  - destruct (escaped w h (advance p)); reflexivity.
Qed.

Lemma reset_stream (w h : Z) (g : rng) : stream (snd (reset w h g)) = stream g.
Proof. reflexivity. Qed.

Lemma fresh_safe (w h : Z) (p : Particle) :
  fresh w h p -> escaped w h p = false /\ expired p = false.
Proof.
  intros (Hx & Hy & _ & _ & _ & _ & Hl & Hm & _). split.
  - destruct (escaped w h p) eqn:E; [| reflexivity].
    apply escaped_spec in E. lra.
  - destruct (expired p) eqn:E; [| reflexivity].
    apply expired_spec in E. rewrite Hl in E. lra.
Qed.

(** X14. With [Math.random()] in its range and a viewport of non-negative
    size, a step leaves every particle, wherever it was, neither expired nor
    outside the widened viewport, and it respawns at most once: it calls
    [Math.random()] either not at all or exactly eight times. *)
Theorem step_settles (w h : Z) (p : Particle) (g : rng) :
  unit_source g -> (0 <= w)%Z -> (0 <= h)%Z ->
  let p' := fst (step w h p g) in
  let g' := snd (step w h p g) in
  escaped w h p' = false /\ expired p' = false
  /\ (calls g' = calls g \/ calls g' = (8 + calls g)%nat)
  /\ stream g' = stream g.
Proof.
  intros U Hw Hh. cbv zeta. rewrite step_unfold.
  pose proof (fresh_safe w h _ (reset_fresh w h g U Hw Hh)) as (F1 & F2).
  destruct (expired (advance p)) eqn:E1.
  - destruct (reset w h g) as [p2 g1] eqn:R. simpl in F1, F2. rewrite F1. simpl.
    repeat split; try assumption.
    + right. change g1 with (snd (p2, g1)). rewrite <- R. apply reset_calls.
    + change g1 with (snd (p2, g1)). rewrite <- R. apply reset_stream.
  - destruct (escaped w h (advance p)) eqn:E2.
    + repeat split; try assumption. right. apply reset_calls.
    + simpl. repeat split; try assumption. now left.
Qed.

Lemma step_settles_witness :
  unit_source Samples.halves /\ (0 <= 800)%Z /\ (0 <= 600)%Z
  /\ escaped 800 600 (fst (step 800 600 Samples.drifter Samples.halves)) = false
  /\ expired (fst (step 800 600 Samples.drifter Samples.halves)) = false
  /\ (calls (snd (step 800 600 Samples.drifter Samples.halves))
      = calls Samples.halves
      \/ calls (snd (step 800 600 Samples.drifter Samples.halves))
         = (8 + calls Samples.halves)%nat)
  /\ stream (snd (step 800 600 Samples.drifter Samples.halves))
     = stream Samples.halves.
Proof.
  assert (U : unit_source Samples.halves).
  { intros n. split; [discriminate | reflexivity]. }
  assert (Hw : (0 <= 800)%Z) by discriminate.
  assert (Hh : (0 <= 600)%Z) by discriminate.
  split; [exact U | split; [exact Hw | split; [exact Hh |]]].
  exact (step_settles 800 600 Samples.drifter Samples.halves U Hw Hh).
Defined.





(** X16. The particle count in whole numbers: it is the floor of
    (2 * area + 45000) / 90000, so the area lies within 22500 of 45000 times
    the count, a viewport of non-negative area gets a non-negative count, and
    the count is 0 exactly below an area of 22500. *)
Theorem particleCount_bounds (w h : Z) :
  let c := particleCount w h in
  (c = (2 * (w * h) + 45000) / 90000
   /\ 45000 * c - 22500 <= w * h < 45000 * c + 22500
   /\ (0 <= w * h -> 0 <= c)
   /\ (c = 0 <-> -22500 <= w * h < 22500))%Z.
Proof.
  cbv zeta.
  assert (E : particleCount w h = ((2 * (w * h) + 45000) / 90000)%Z).
  { remember ((2 * (w * h) + 45000) / 90000)%Z as rhs eqn:R.
    unfold particleCount, Math_round, Qfloor, Qdiv, Qmult, Qinv, Qplus, inject_Z.
    simpl. subst rhs. f_equal. lia. }
  rewrite E.
  pose proof (Z.div_mod (2 * (w * h) + 45000) 90000 ltac:(lia)) as D.
  pose proof (Z.mod_pos_bound (2 * (w * h) + 45000) 90000 ltac:(lia)) as M.
  repeat split; try lia.
Qed.

End ParticleStepFacts.

Section ParticleSurvival.

Import Random Particles ParticleRuns.
Local Open Scope Q_scope.

Local Arguments reset : simpl never.
Local Arguments advance : simpl never.









(** The bound is the margin over the top speed: a particle at the left edge
    moving left at full speed is respawned at its 84th frame. *)
Example fast_particle_respawns_at_84 :
  let p := {| x := 0; y := 300; vx := -(12 # 100); vy := 0; r := 2;
              hue := 180; life := 0; maxLife := 200; alpha := 1 # 5 |} in
  calls (snd (steps 83 800 600 p Samples.halves)) = 0%nat
  /\ calls (snd (steps 84 800 600 p Samples.halves)) = 8%nat.
Proof. split; vm_compute; reflexivity. Qed.

End ParticleSurvival.

(* ================================================================== *)
(** * More on the limited-slots counter *)
(* ================================================================== *)

Module SlotDraws.

Import Random.

(** How many of the next [n] values of the random source exceed 0.8. *)
Fixpoint hits (g : rng) (n : nat) : Z :=
  match n with
  | O => 0
  | S n' =>
      hits g n'
      + (if Scroll.gt (stream g (calls g + n')) (8 # 10) then 1 else 0)
  end.

End SlotDraws.

Section SlotFacts.

Import Random CTABox SlotDraws.
Local Open Scope Z_scope.

Lemma hits_step (g : rng) (n : nat) : hits g n <= hits g (S n) <= hits g n + 1.
Proof. simpl. destruct (Scroll.gt _ _); lia. Qed.

Lemma ticks_succ (n : nat) (g : rng) :
  ticks (S n) g = tick (fst (ticks n g)) (snd (ticks n g)).
Proof. simpl. unfold bind. now destruct (ticks n g). Qed.

(** While the counter is above 2 every tick has drawn one value; once it is
    at 2, at least four of the values offered were above 0.8. *)
Lemma ticks_state (g : rng) (n : nat) :
  stream (snd (ticks n g)) = stream g
  /\ ((2 < fst (ticks n g) /\ calls (snd (ticks n g)) = (calls g + n)%nat
       /\ fst (ticks n g) = 6 - hits g n)
      \/ (fst (ticks n g) = 2 /\ 4 <= hits g n)).
Proof.
  induction n as [| n (Hst & IH)].
  - simpl. split; [reflexivity |]. left. unfold ret, initial_slots. simpl.
    repeat split; lia.
  - rewrite ticks_succ. pose proof (hits_step g n) as Hh.
    destruct (ticks n g) as [s g1]. cbn [fst snd] in Hst, IH. cbn [fst snd].
    unfold tick. destruct IH as [(Hs & Hc & He) | (Hs & H4)].
    + replace (s >? 2) with true by (symmetry; apply Z.gtb_lt; lia).
      unfold bind, random, ret. cbn [fst snd stream calls].
      split; [exact Hst |].
      rewrite Hst, Hc. cbn [hits].
      destruct (Scroll.gt (stream g (calls g + n)) (8 # 10)).
      * destruct (Z.eq_dec s 3) as [-> | Hne].
        -- right. split; lia.
        -- left. repeat split; lia.
      * left. repeat split; lia.
    + replace (s >? 2) with false by (symmetry; rewrite Z.gtb_ltb; apply Z.ltb_ge; lia).
      unfold ret. cbn [fst snd]. split; [exact Hst |]. right. split; lia.
Qed.

(** X18. The counter after [n] ticks in closed form: 6 minus the number of
    the first [n] random values above 0.8, but never below 2. *)
Theorem slots_closed_form (g : rng) (n : nat) :
  slots n g = Z.max 2 (6 - hits g n).
Proof.
  unfold slots. destruct (ticks_state g n) as (_ & [(Hs & _ & He) | (Hs & H4)]); lia.
Qed.

(** X19. Two is absorbing: once the counter shows 2 it shows 2 after every
    later tick, and those ticks no longer call [Math.random()]. *)
Theorem slots_stay_at_2 (g : rng) (n k : nat) :
  slots n g = 2 ->
  slots (n + k) g = 2
  /\ calls (snd (ticks (n + k) g)) = calls (snd (ticks n g)).
Proof.
  unfold slots. intros H. induction k as [| k (IH1 & IH2)].
  - rewrite Nat.add_0_r. split; [exact H | reflexivity].
  - rewrite Nat.add_succ_r, ticks_succ, IH1, <- IH2. split; reflexivity.
Qed.

Lemma slots_stay_at_2_witness :
  let g := seed (fun _ => (9 # 10)%Q) in
  slots 4 g = 2
  /\ slots (4 + 10) g = 2
  /\ calls (snd (ticks (4 + 10) g)) = calls (snd (ticks 4 g)).
Proof.
  intros g.
  assert (H : slots 4 g = 2) by reflexivity.
  split; [exact H | exact (slots_stay_at_2 g 4 10 H)].
Defined.

End SlotFacts.

(* ================================================================== *)
(** * The reservation simulator: [ReservationSimulator] *)
(* ================================================================== *)

Module Reservation.

Local Open Scope string_scope.
Local Open Scope list_scope.

(** The component's [useState] cells. *)
Record State : Type := {
  name : jsstring;
  people : Z;
  time : jsstring;
  confirmed : bool
}.

Definition initial : State :=
  {| name := lit ""; people := 2; time := lit "20:00"; confirmed := false |}.

(** The values of the [option] elements of the select. *)
Definition people_options : list Z := [1; 2; 3; 4; 5; 6]%Z.

Definition msg_name_missing : jsstring := lit "Veuillez entrer votre nom.".

(** What the user can do to the component.  [ChoosePeople n] is the change
    event of the select with the option of value [n] chosen, whose handler
    stores [Number(e.target.value)]. *)
Inductive event : Type :=
| TypeName (v : jsstring)
| ChoosePeople (n : Z)
| PickTime (v : jsstring)
| ClickReserve.

(** The controls in the rendered tree: the form while [!confirmed], the
    confirmation text (no control) afterwards. *)
Inductive control : Type :=
| NameInput
| PeopleSelect
| TimeInput
| ReserveButton.

Definition rendered (st : State) : list control :=
  if negb (confirmed st) then [NameInput; PeopleSelect; TimeInput; ReserveButton]
  else [].

(** The [onClick] of the button. *)
Definition onReserveClick (st : State) : State * list jsstring :=
  if negb (truthy (name st)) then (st, [msg_name_missing])
  else ({| name := name st; people := people st; time := time st;
           confirmed := true |}, []).

(** An event reaches its handler when its control is in the rendered tree
    (and, for the select, when the value is one of its options); the second
    component lists the [alert] calls. *)
Definition dispatch (ev : event) (st : State) : State * list jsstring :=
  match rendered st with
  | [] => (st, [])
  | _ :: _ =>
      match ev with
      | TypeName v =>
          ({| name := v; people := people st; time := time st;
              confirmed := confirmed st |}, [])
      | ChoosePeople n =>
          if existsb (Z.eqb n) people_options then
            ({| name := name st; people := n; time := time st;
                confirmed := confirmed st |}, [])
          else (st, [])
      | PickTime v =>
          ({| name := name st; people := people st; time := v;
              confirmed := confirmed st |}, [])
      | ClickReserve => onReserveClick st
      end
  end.

Fixpoint run (evs : list event) (st : State) : State * list jsstring :=
  match evs with
  | [] => (st, [])
  | ev :: evs' =>
      let (st1, a1) := dispatch ev st in
      let (st2, a2) := run evs' st1 in
      (st2, a1 ++ a2)
  end.

(** The text of the confirmation view:
    [Merci {name} — Table pour {people} à {time}.] *)
Definition confirmation (st : State) : jsstring :=
  lit "Merci " ++ name st ++ lit " — Table pour "
  ++ ProgressBar.Number_toString (people st) ++ lit " à " ++ time st ++ lit ".".

End Reservation.

Section ReservationFacts.

Import Reservation.
Local Open Scope Z_scope.

(** What holds of every state the component can be in. *)
Definition reservation_ok (st : State) : Prop :=
  1 <= people st <= 6 /\ (confirmed st = true -> name st <> []).

Lemma dispatch_ok (ev : event) (st : State) :
  reservation_ok st -> reservation_ok (fst (dispatch ev st)).
Proof.
  unfold reservation_ok. intros (Hp & Hc). unfold dispatch, rendered.
  destruct (confirmed st) eqn:C; cbn [negb fst].
  { split; [exact Hp | intros _; now apply Hc]. }
  destruct ev as [v | n | v |].
  - cbn. split; [exact Hp | discriminate].
  - destruct (existsb (Z.eqb n) people_options) eqn:E; cbn [fst].
    + cbn [people confirmed name]. split; [| discriminate].
      apply existsb_exists in E. destruct E as (m & Hin & Em).
      apply Z.eqb_eq in Em. subst m. simpl in Hin. lia.
    + split; [exact Hp | congruence].
  - cbn. split; [exact Hp | discriminate].
  - unfold onReserveClick. destruct (name st) eqn:N; cbn.
    + split; [exact Hp | congruence].
    + split; [exact Hp | discriminate].
Qed.

Lemma dispatch_alerts (ev : event) (st : State) :
  Forall (eq msg_name_missing) (snd (dispatch ev st)).
Proof.
  unfold dispatch, rendered. destruct (confirmed st); cbn [negb snd]; [constructor |].
  destruct ev as [v | n | v |].
  - cbn. constructor.
  - destruct (existsb (Z.eqb n) people_options); cbn; constructor.
  - cbn. constructor.
  - unfold onReserveClick. destruct (truthy (name st)); cbn; repeat constructor.
Qed.

Lemma run_confirmed (evs : list event) (st : State) :
  confirmed st = true -> run evs st = (st, []).
Proof.
  intros C. induction evs as [| ev evs IH]; simpl; [reflexivity |].
  unfold dispatch, rendered. rewrite C. simpl. now rewrite IH.
Qed.

(** X20. Whatever the user does, starting from the initial state: the party
    size stays one of 1 to 6, a confirmed reservation has a non-empty name,
    the only alert ever raised is the missing-name one, and once the
    reservation is confirmed nothing changes it any more. *)
Theorem reservation_invariant (evs more : list event) :
  let st := fst (run evs initial) in
  1 <= people st <= 6
  /\ (confirmed st = true -> name st <> [])
  /\ Forall (eq msg_name_missing) (snd (run evs initial))
  /\ (confirmed st = true -> run more st = (st, [])).
Proof.
  cbv zeta.
  assert (G : forall st0, reservation_ok st0 ->
                          reservation_ok (fst (run evs st0))
                          /\ Forall (eq msg_name_missing) (snd (run evs st0))).
  { induction evs as [| ev evs IH]; intros st0 H0; simpl.
    - split; [exact H0 | constructor].
    - pose proof (dispatch_ok ev st0 H0) as H1.
      pose proof (dispatch_alerts ev st0) as A1.
      destruct (dispatch ev st0) as [st1 a1]. simpl in H1, A1.
      destruct (IH st1 H1) as (H2 & A2).
      destruct (run evs st1) as [st2 a2]. simpl in *.
      split; [exact H2 | apply Forall_app; split; assumption]. }
  assert (I : reservation_ok initial).
  { split; [simpl; lia | discriminate]. }
  destruct (G initial I) as ((Hp & Hc) & A).
  repeat split; try assumption; try lia.
  apply run_confirmed.
Qed.

(** X21. A click on the button of the form confirms the reservation exactly
    when the name is not the empty string, and raises the alert exactly when
    it is; the name is not trimmed, so a name of spaces confirms.  Either way
    the name, party size and time are left as they were. *)
Theorem reserve_click (st : State) :
  let st' := fst (onReserveClick st) in
  (confirmed st' = true <-> name st <> [] \/ confirmed st = true)
  /\ (snd (onReserveClick st) = [msg_name_missing] <-> name st = [])
  /\ (name st = [] -> st' = st)
  /\ name st' = name st /\ people st' = people st /\ time st' = time st
  /\ (blank (name st) -> name st <> [] -> confirmed st' = true).
Proof.
  unfold onReserveClick. destruct (name st) as [| c s] eqn:N; cbn; rewrite ?N.
  - intuition congruence.
  - intuition (congruence || discriminate).
Qed.

End ReservationFacts.

(* ================================================================== *)
(** * Navigation and portfolio tabs: [App], [Nav], [Portfolio] *)
(* ================================================================== *)

Module Navigation.

Local Open Scope string_scope.
Local Open Scope list_scope.

(** [type MiniSiteKey = "restaurant" | "realestate" | "saas"] *)
Inductive MiniSiteKey : Type :=
| restaurant
| realestate
| saas.

Definition key_eqb (a b : MiniSiteKey) : bool :=
  match a, b with
  | restaurant, restaurant | realestate, realestate | saas, saas => true
  | _, _ => false
  end.

(** The two state cells of [App] that [Nav] and [Portfolio] share, and what
    the effect on [navOpen] has left on the window: the number of
    [hashchange] listeners it has registered and not removed, and whether its
    last run returned a cleanup. *)
Record App : Type := {
  navOpen : bool;
  activeMini : MiniSiteKey;
  routeListeners : nat;
  hasCleanup : bool
}.

(** The effect with dependency [navOpen], run after a render in which
    [navOpen] is [v]: the cleanup of its previous run first, then its body,
    which returns early when the menu is closed. *)
Definition route_effect (v : bool) (a : App) : App :=
  let kept := if hasCleanup a then pred (routeListeners a) else routeListeners a in
  if negb v then
    {| navOpen := v; activeMini := activeMini a;
       routeListeners := kept; hasCleanup := false |}
  else
    {| navOpen := v; activeMini := activeMini a;
       routeListeners := S kept; hasCleanup := true |}.

(** The first render and its effects. *)
Definition mounted : App :=
  route_effect false
    {| navOpen := false; activeMini := restaurant;
       routeListeners := 0; hasCleanup := false |}.

(** [setNavOpen(v)]: no render, hence no effect, when the value is the one
    the cell holds. *)
Definition setNavOpen (v : bool) (a : App) : App :=
  if Bool.eqb v (navOpen a) then a else route_effect v a.

Definition setActiveMini (k : MiniSiteKey) (a : App) : App :=
  {| navOpen := navOpen a; activeMini := k;
     routeListeners := routeListeners a; hasCleanup := hasCleanup a |}.

Inductive event : Type :=
| ClickToggle
| ClickMobileLink
| ClickPortfolioLink
| ClickTab (k : MiniSiteKey)
| HashChange.

(** The handlers.  The links of the mobile menu are in the tree only under
    [navOpen &&]; a [hashchange] runs [handleRoute] once per listener. *)
Definition dispatch (ev : event) (a : App) : App :=
  match ev with
  | ClickToggle => setNavOpen (negb (navOpen a)) a
  | ClickMobileLink => if navOpen a then setNavOpen false a else a
  | ClickPortfolioLink => setActiveMini restaurant a
  | ClickTab k => setActiveMini k a
  | HashChange => Nat.iter (routeListeners a) (setNavOpen false) a
  end.

Definition run (evs : list event) (a : App) : App :=
  fold_left (fun s ev => dispatch ev s) evs a.

(** The three conditional panels of [Portfolio], in source order. *)
Definition panels (active : MiniSiteKey) : list MiniSiteKey :=
  (if key_eqb active restaurant then [restaurant] else [])
  ++ (if key_eqb active realestate then [realestate] else [])
  ++ (if key_eqb active saas then [saas] else []).

(** [s.split(sep)] for a separator of one code unit. *)
Fixpoint split (sep : N) (s : jsstring) : list jsstring :=
  match s with
  | [] => [[]]
  | c :: s' =>
      if (c =? sep)%N then [] :: split sep s'
      else match split sep s' with
           | [] => [[c]]
           | w :: ws => (c :: w) :: ws
           end
  end.

(** [parts.join(sep)] *)
Fixpoint join (sep : N) (parts : list jsstring) : jsstring :=
  match parts with
  | [] => []
  | [w] => w
  | w :: ws => w ++ sep :: join sep ws
  end.

(** The label of a tab: [m.title.split(" ")[0]]. *)
Definition tab_label (title : jsstring) : jsstring :=
  hd [] (split 32 title).

Definition minis : list (MiniSiteKey * jsstring) :=
  [(restaurant, lit "Restaurant Gastronomique");
   (realestate, lit "Agence Immobilière");
   (saas, lit "SaaS B2B")].

End Navigation.

Section NavigationFacts.

Import Navigation.

(** The window holds one [hashchange] listener while the menu is open and
    none while it is closed. *)
Definition tidy (a : App) : Prop :=
  routeListeners a = (if navOpen a then 1 else 0)%nat /\ hasCleanup a = navOpen a.

Lemma setNavOpen_tidy (v : bool) (a : App) :
  tidy a -> tidy (setNavOpen v a) /\ navOpen (setNavOpen v a) = v
            /\ activeMini (setNavOpen v a) = activeMini a.
Proof.
  unfold tidy, setNavOpen, route_effect. intros (L & C).
  destruct v, (navOpen a) eqn:O; cbn; rewrite ?O, ?C, ?L; cbn; auto.
Qed.

Lemma dispatch_tidy (ev : event) (a : App) : tidy a -> tidy (dispatch ev a).
Proof.
  intros T. destruct ev as [| | | k |]; cbn [dispatch].
  - now apply setNavOpen_tidy.
  - destruct (navOpen a); [now apply setNavOpen_tidy | exact T].
  - exact T.
  - exact T.
  - destruct T as (L & C). rewrite L. destruct (navOpen a) eqn:O; cbn.
    + apply setNavOpen_tidy. split; [now rewrite O | now rewrite O].
    + split; [now rewrite O | now rewrite O].
Qed.

Lemma run_tidy (evs : list event) (a : App) : tidy a -> tidy (run evs a).
Proof.
  revert a. induction evs as [| ev evs IH]; intros a T; cbn; [exact T |].
  apply IH, dispatch_tidy, T.
Qed.

(** X22. Whatever clicks and hash changes follow the first render, the effect
    on [navOpen] keeps exactly one [hashchange] listener on the window while
    the menu is open and none while it is closed; from there a hash change or
    a click on a link of the mobile menu leaves the menu closed, and two
    clicks on the toggle leave everything as it was. *)
Theorem nav_listener_invariant (evs : list event) :
  let a := run evs mounted in
  routeListeners a = (if navOpen a then 1 else 0)%nat
  /\ navOpen (dispatch HashChange a) = false
  /\ navOpen (dispatch ClickMobileLink a) = false
  /\ dispatch ClickToggle (dispatch ClickToggle a) = a.
Proof.
  cbv zeta.
  assert (T : tidy (run evs mounted)).
  { apply run_tidy. split; reflexivity. }
  set (a := run evs mounted) in *. destruct T as (L & C).
  split; [exact L |].
  destruct a as [o k l c]. cbn in L, C. subst l c.
  destruct o; repeat split; reflexivity.
Qed.

Lemma split_nonempty (sep : N) (s : jsstring) : split sep s <> [].
Proof.
  destruct s as [| c s]; simpl; [discriminate |].
  destruct (c =? sep)%N; [discriminate |].
  destruct (split sep s); discriminate.
Qed.

Lemma join_cons (sep : N) (w : jsstring) (ws : list jsstring) :
  ws <> [] -> join sep (w :: ws) = w ++ sep :: join sep ws.
Proof. destruct ws; [congruence | reflexivity]. Qed.

(** X23. [split] on a one-unit separator and [join] on the same separator
    are inverse on every string, no piece of the split holds the separator,
    and so the tab label (the first piece of the title split on the space) is
    the title up to its first space: it holds no space, and the title is the
    label alone or the label, a space and a remainder.  The three tabs read
    Restaurant, Agence and SaaS. *)
Theorem tab_label_first_word (title : jsstring) :
  join 32 (split 32 title) = title
  /\ Forall (fun w => ~ In 32%N w) (split 32 title)
  /\ ~ In 32%N (tab_label title)
  /\ (title = tab_label title
      \/ exists rest, title = tab_label title ++ 32%N :: rest)
  /\ map (fun m => tab_label (snd m)) minis
     = [lit "Restaurant"; lit "Agence"; lit "SaaS"].
Proof.
  assert (J : forall s, join 32 (split 32 s) = s
                        /\ Forall (fun w => ~ In 32%N w) (split 32 s)).
  { induction s as [| c s (IH1 & IH2)]; simpl.
    - split; [reflexivity | repeat constructor; auto].
    - destruct (c =? 32)%N eqn:E.
      + apply N.eqb_eq in E. subst c. split.
        * rewrite join_cons by apply split_nonempty. now rewrite IH1.
        * constructor; [auto | exact IH2].
      + apply N.eqb_neq in E. pose proof (split_nonempty 32 s) as NE.
        destruct (split 32 s) as [| w ws]; [congruence |]. split.
        * destruct ws as [| w' ws]; simpl in *; now rewrite <- IH1.
        * inversion IH2; subst. constructor; [| assumption].
          simpl. intros [H | H]; [congruence | contradiction]. }
  destruct (J title) as (J1 & J2).
  split; [exact J1 | split; [exact J2 |]].
  unfold tab_label. pose proof (split_nonempty 32 title) as NE.
  destruct (split 32 title) as [| w ws]; [congruence |]. simpl hd.
  split; [now inversion J2 |].
  split; [| reflexivity].
  destruct ws as [| w' ws]; simpl in J1.
  - left. now symmetry.
  - right. eexists. symmetry. exact J1.
Qed.

(** Whichever mini-site is active, [Portfolio] renders exactly one of its
    three conditional panels, the active one, and every tab click makes its
    own mini-site the active one without touching the menu. *)
Lemma portfolio_one_panel (k : MiniSiteKey) (a : App) :
  panels (activeMini (dispatch (ClickTab k) a)) = [k]
  /\ panels (activeMini a) = [activeMini a]
  /\ navOpen (dispatch (ClickTab k) a) = navOpen a
  /\ routeListeners (dispatch (ClickTab k) a) = routeListeners a
  /\ activeMini (dispatch ClickPortfolioLink a) = restaurant.
Proof.
  repeat split; try reflexivity.
  - destruct k; reflexivity.
  - destruct (activeMini a); reflexivity.
Qed.

End NavigationFacts.
